(** * Reading-order sequencing and heading-driven grouping of PDF text blocks

    Shallow embedding of [main.py]:
    - [TextBlock], the record built from each raw block of a page;
    - [extract_text_blocks], which guards the page index, builds the blocks
      and sorts them by [(y0, x0)];
    - [group_blocks], the single pass that files every block into one of four
      groups, driven by three "section active" flags.

    Conventions of the embedding.
    - A coordinate is a Python [float]: a finite float is the rational it
      denotes ([Finite q]), and [NaN] is kept, since Python's [<] and [==]
      are both false on it and the sort sees that.  Two finite floats may be
      [==] without being the same value ([0.0] and [-0.0]); the several
      fractions of one rational keep that distinction.  Every coordinate is a
      float object of its own, so a NaN is never [==] to anything.  The two
      infinities order like finite values and are left out.
    - A Python [str] is a [string] whose characters are the code points
      below 256; [strip] and [lower] follow Python on that range.
    - [list.sort] is CPython's: the leading run is detected ([count_run]) and
      every later element is placed by binary search ([binarysort]).  That is
      the whole algorithm on lists of fewer than 64 items; longer lists are
      merged from such runs, which gives the same list whenever the keys are
      totally ordered. *)

From Stdlib Require Import List String Ascii Bool Arith ZArith QArith Lia Lqa.
From Stdlib Require Import Permutation Sorted.
Import ListNotations.

Local Close Scope Q_scope.
Local Open Scope string_scope.
Local Open Scope list_scope.

(** ** Python strings *)

Module PyStr.

(** [str.isspace] on one code point below 256: TAB..CR, FS..US, SPACE,
    NEL (0x85) and NBSP (0xA0). *)
Definition isspace (c : ascii) : bool :=
  let n := nat_of_ascii c in
  (((9 <=? n) && (n <=? 13)) || ((28 <=? n) && (n <=? 32))
   || (n =? 133) || (n =? 160))%nat.

(** [str.lower] on one code point below 256: 'A'..'Z' and the Latin-1
    capitals 0xC0..0xDE (the multiplication sign 0xD7 apart) move up
    by 32. *)
Definition lower_char (c : ascii) : ascii :=
  let n := nat_of_ascii c in
  if (((65 <=? n) && (n <=? 90))
      || ((192 <=? n) && (n <=? 222) && negb (n =? 215)))%nat
  then ascii_of_nat (n + 32) else c.

Fixpoint lower (s : string) : string :=
  match s with
  | EmptyString => EmptyString
  | String c r => String (lower_char c) (lower r)
  end.

Fixpoint lstrip (s : string) : string :=
  match s with
  | EmptyString => EmptyString
  | String c r => if isspace c then lstrip r else s
  end.

(** Drops the trailing whitespace: a character is kept when it is not
    whitespace or when something is kept after it. *)
Fixpoint rstrip (s : string) : string :=
  match s with
  | EmptyString => EmptyString
  | String c r =>
      match rstrip r with
      | EmptyString => if isspace c then EmptyString else String c EmptyString
      | r' => String c r'
      end
  end.

Definition strip (s : string) : string := rstrip (lstrip s).

Fixpoint startswith (s p : string) {struct p} : bool :=
  match p, s with
  | EmptyString, _ => true
  | String _ _, EmptyString => false
  | String a p', String b s' => Ascii.eqb a b && startswith s' p'
  end.

(** [sub in s]: [sub] occurs in [s] at some offset. *)
Fixpoint contains (sub s : string) : bool :=
  startswith s sub
  || match s with
     | EmptyString => false
     | String _ r => contains sub r
     end.

End PyStr.

(** ** Python floats and key tuples *)

Inductive pyfloat : Type :=
| Finite (q : Q)
| NaN.

Definition is_nan (a : pyfloat) : bool :=
  match a with
  | NaN => true
  | Finite _ => false
  end.

(** [a < b] *)
Definition float_lt (a b : pyfloat) : bool :=
  match a, b with
  | Finite p, Finite q =>
      match (p ?= q)%Q with Lt => true | _ => false end
  | _, _ => false
  end.

(** [a == b] *)
Definition float_eq (a b : pyfloat) : bool :=
  match a, b with
  | Finite p, Finite q => Qeq_bool p q
  | _, _ => false
  end.

(** [<] and [==] as propositions over the rationals. *)
Definition FLt (a b : pyfloat) : Prop :=
  match a, b with
  | Finite p, Finite q => (p < q)%Q
  | _, _ => False
  end.

Definition FEq (a b : pyfloat) : Prop :=
  match a, b with
  | Finite p, Finite q => (p == q)%Q
  | _, _ => False
  end.

(** [v < w] on 2-tuples of floats: the first position where the items are
    not [==] decides with [<]; tuples equal at both positions are not [<]. *)
Definition tuple_lt (v w : pyfloat * pyfloat) : bool :=
  if negb (float_eq (fst v) (fst w)) then float_lt (fst v) (fst w)
  else if negb (float_eq (snd v) (snd w)) then float_lt (snd v) (snd w)
  else false.

(** ** TextBlock *)

Record TextBlock : Type := mkTextBlock {
  x0 : pyfloat;
  y0 : pyfloat;
  x1 : pyfloat;
  y1 : pyfloat;
  text : string;
  block_no : Z
}.

(** ** list.sort(key=...) *)

Section ListSort.
Context {A K : Type}.
Variable key : A -> K.
Variable lt : K -> K -> bool.

(** How many items of [l], read after [prev], go on without a drop. *)
Fixpoint ascending_run (prev : A) (l : list A) : nat :=
  match l with
  | [] => 0
  | x :: r =>
      if lt (key x) (key prev) then 0 else S (ascending_run x r)
  end.

(** How many items of [l], read after [prev], go on dropping strictly. *)
Fixpoint descending_run (prev : A) (l : list A) : nat :=
  match l with
  | [] => 0
  | x :: r =>
      if lt (key x) (key prev) then S (descending_run x r) else 0
  end.

(** [count_run]: length of the run the list starts with, and whether it is a
    strictly descending one. *)
Definition count_run (l : list A) : nat * bool :=
  match l with
  | [] => (0, false)
  | [x] => (1, false)
  | x :: y :: r =>
      if lt (key y) (key x) then (2 + descending_run y r, true)
      else (2 + ascending_run y r, false)
  end.

(** The leading run, reversed in place when it descends. *)
Definition initial_run (l : list A) : list A :=
  let '(n, descending) := count_run l in
  if descending then rev (firstn n l) else firstn n l.

(** One round of [binarysort]: the pivot is compared with the middle item
    of the segment still open; a smaller pivot goes on in the left part, any
    other in the part right of the middle; it is inserted where the segment
    has become empty.  The segment shrinks at every probe, so [fuel], its
    length at the start, is never used up. *)
Fixpoint binary_insert (fuel : nat) (pivot : A) (seg : list A) : list A :=
  match fuel with
  | 0 => pivot :: seg
  | S fuel' =>
      let p := Nat.div2 (List.length seg) in
      match skipn p seg with
      | [] => pivot :: seg
      | e :: upper =>
          if lt (key pivot) (key e)
          then binary_insert fuel' pivot (firstn p seg) ++ e :: upper
          else firstn p seg ++ e :: binary_insert fuel' pivot upper
      end
  end.

Definition list_sort (l : list A) : list A :=
  fold_left (fun run pivot => binary_insert (List.length run) pivot run)
            (skipn (fst (count_run l)) l) (initial_run l).

(** Linear insertion, the yardstick for [binary_insert]: [pivot] goes before
    the first item with a greater key, hence behind every item with an equal
    key. *)
Fixpoint insert_run (pivot : A) (run : list A) : list A :=
  match run with
  | [] => [pivot]
  | y :: r =>
      if lt (key pivot) (key y) then pivot :: run
      else y :: insert_run pivot r
  end.

(** [a] may stand before [b] in sorted output. *)
Definition le_key (a b : A) : Prop := lt (key b) (key a) = false.

Definition lt_key (a b : A) : Prop := lt (key a) (key b) = true.

Definition equiv_key (c a : A) : bool :=
  negb (lt (key c) (key a)) && negb (lt (key a) (key c)).
End ListSort.

(** The key of line 33: [lambda blk: (blk.y0, blk.x0)]. *)
Definition sort_key (blk : TextBlock) : pyfloat * pyfloat := (y0 blk, x0 blk).

Definition sort_blocks (blocks : list TextBlock) : list TextBlock :=
  list_sort sort_key tuple_lt blocks.

(** Equal top and equal left, with Python's [==]. *)
Definition same_key (a b : TextBlock) : bool :=
  float_eq (y0 a) (y0 b) && float_eq (x0 a) (x0 b).

(** Top and left are numbers. *)
Definition no_nan (blk : TextBlock) : bool :=
  negb (is_nan (y0 blk)) && negb (is_nan (x0 blk)).

(** ** Occurrence order in a list *)

(** Some occurrence of [x] comes before some occurrence of [y]. *)
Definition Before {A : Type} (x y : A) (l : list A) : Prop :=
  exists l1 l2 l3, l = l1 ++ x :: l2 ++ y :: l3.

(** ** extract_text_blocks *)

(** One item of [page.get_text("blocks")], as PyMuPDF builds it: the tuple
    [(x0, y0, x1, y1, "lines in the block", block_no, block_type)]. *)
Definition RawBlock : Type :=
  (pyfloat * pyfloat * pyfloat * pyfloat * string * Z * Z)%type.
Definition Page : Type := list RawBlock.
(** An opened document: its pages, in order. *)
Definition Document : Type := list Page.

Inductive PyError : Type :=
| ValueError (page_count : Z) (page_index : Z)
    (** line 23: "PDF has only ... pages, cannot load page ..." *)
| TooManyValues (expected : nat)
    (** line 29: "too many values to unpack (expected 6)", a ValueError *)
| PageNotInDocument
    (** raised by [load_page] itself for a page number not below the count *).

(** How a call ends: with a value, with an exception, or not at all. *)
Inductive outcome (A : Type) : Type :=
| Returns (a : A)
| Raises (e : PyError)
| Hangs.

Arguments Returns {A} a.
Arguments Raises {A} e.
Arguments Hangs {A}.

Definition page_count (doc : Document) : Z := Z.of_nat (List.length doc).

(** [doc.load_page(page_id)]: PyMuPDF refuses a [page_id] that is not below
    [page_count]; while [page_id] is negative it adds [page_count] to it,
    which never ends on a document without pages. *)
Definition load_page (doc : Document) (page_id : Z) : outcome Page :=
  if (page_id >=? page_count doc)%Z then Raises PageNotInDocument
  else if (page_count doc =? 0)%Z then Hangs
  else Returns (nth (Z.to_nat (page_id mod page_count doc)) doc []).

(** Line 29, [x0, y0, x1, y1, text, block_no = b]: six names for the items of
    [b].  An item of [get_text("blocks")] has seven, one too many, so the
    assignment raises and line 30 is never reached. *)
Definition unpack_six (b : RawBlock) : PyError + TextBlock :=
  inl (TooManyValues 6).

(** Lines 27 to 30: the loop that fills [blocks]. *)
Fixpoint make_blocks (raw_blocks : list RawBlock) : PyError + list TextBlock :=
  match raw_blocks with
  | [] => inr []
  | b :: rest =>
      match unpack_six b with
      | inl e => inl e
      | inr blk =>
          match make_blocks rest with
          | inl e => inl e
          | inr blocks => inr (blk :: blocks)
          end
      end
  end.

Definition extract_text_blocks (doc : Document) (page_index : Z)
  : outcome (list TextBlock) :=
  if (page_index >=? page_count doc)%Z
  then Raises (ValueError (page_count doc) page_index)
  else
    match load_page doc page_index with
    | Raises e => Raises e
    | Hangs => Hangs
    | Returns raw_blocks =>
        match make_blocks raw_blocks with
        | inl e => Raises e
        | inr blocks => Returns (sort_blocks blocks)
        end
    end.

(** [a] is not lower on the page than [b]: [b.y0 < a.y0] is false. *)
Definition top_le (a b : TextBlock) : Prop := float_lt (y0 b) (y0 a) = false.

(** ** group_blocks *)

(** The loop state: the four buckets and the three flags. *)
Record state : Type := mkState {
  group1 : list TextBlock;
  group2 : list TextBlock;
  group3 : list TextBlock;
  group4 : list TextBlock;
  in_group2 : bool;
  in_group3 : bool;
  in_group4 : bool
}.

Definition init : state := mkState [] [] [] [] false false false.

Definition txt_clean (blk : TextBlock) : string :=
  PyStr.lower (PyStr.strip (text blk)).

(** One iteration of the [for blk in blocks] loop. *)
Definition step (s : state) (blk : TextBlock) : state :=
  let t := txt_clean blk in
  if PyStr.contains "restricted" t then
    mkState (group1 s ++ [blk]) (group2 s) (group3 s) (group4 s)
            (in_group2 s) (in_group3 s) (in_group4 s)
  else if PyStr.contains "programme/project status report" t then
    mkState (group1 s) (group2 s ++ [blk]) (group3 s) (group4 s)
            true false false
  else if PyStr.contains "description" t then
    mkState (group1 s) (group2 s) (group3 s ++ [blk]) (group4 s)
            false true false
  else if PyStr.contains "report parameters" t then
    mkState (group1 s) (group2 s) (group3 s) (group4 s ++ [blk])
            false false true
  else if in_group2 s then
    mkState (group1 s) (group2 s ++ [blk]) (group3 s) (group4 s)
            (in_group2 s) (in_group3 s) (in_group4 s)
  else if in_group3 s then
    mkState (group1 s) (group2 s) (group3 s ++ [blk]) (group4 s)
            (in_group2 s) (in_group3 s) (in_group4 s)
  else if in_group4 s then
    mkState (group1 s) (group2 s) (group3 s) (group4 s ++ [blk])
            (in_group2 s) (in_group3 s) (in_group4 s)
  else s.

Definition run (s : state) (blocks : list TextBlock) : state :=
  fold_left step blocks s.

Definition groups_of (s : state) : list (list TextBlock) :=
  [group1 s; group2 s; group3 s; group4 s].

Definition group_blocks (blocks : list TextBlock) : list (list TextBlock) :=
  groups_of (run init blocks).

(** ** The Segmenter, as the specification words it

    The specification describes [group_blocks] as a state machine over one
    "active group" and a priority table of keywords.  These definitions
    follow those words; the theorems below compare them with [step]. *)

Inductive section : Type := SecA | SecB | SecC.

Inductive rule : Type :=
| RMarker
| RHeading (sec : section).

(** The keyword table in its fixed priority order. *)
Definition keyword_table : list (string * rule) :=
  [ ("restricted", RMarker);
    ("programme/project status report", RHeading SecA);
    ("description", RHeading SecB);
    ("report parameters", RHeading SecC) ].

(** First entry of the table whose keyword occurs in [t]. *)
Fixpoint first_match (table : list (string * rule)) (t : string) : option rule :=
  match table with
  | [] => None
  | (kw, r) :: rest =>
      if PyStr.contains kw t then Some r else first_match rest t
  end.

Definition classify (blk : TextBlock) : option rule :=
  first_match keyword_table (txt_clean blk).

(** The active group that the three flags stand for, read in the order in
    which the follower branch tests them. *)
Definition active_group (s : state) : option section :=
  if in_group2 s then Some SecA
  else if in_group3 s then Some SecB
  else if in_group4 s then Some SecC
  else None.

Definition flags (s : state) : bool * bool * bool :=
  (in_group2 s, in_group3 s, in_group4 s).

Definition flags_for (sec : section) : bool * bool * bool :=
  match sec with
  | SecA => (true, false, false)
  | SecB => (false, true, false)
  | SecC => (false, false, true)
  end.

Definition set_flags (f : bool * bool * bool) (s : state) : state :=
  let '(f2, f3, f4) := f in
  mkState (group1 s) (group2 s) (group3 s) (group4 s) f2 f3 f4.

Definition add_marker (l : list TextBlock) (s : state) : state :=
  mkState (group1 s ++ l) (group2 s) (group3 s) (group4 s)
          (in_group2 s) (in_group3 s) (in_group4 s).

Definition add_section (sec : section) (l : list TextBlock) (s : state) : state :=
  match sec with
  | SecA => mkState (group1 s) (group2 s ++ l) (group3 s) (group4 s)
                    (in_group2 s) (in_group3 s) (in_group4 s)
  | SecB => mkState (group1 s) (group2 s) (group3 s ++ l) (group4 s)
                    (in_group2 s) (in_group3 s) (in_group4 s)
  | SecC => mkState (group1 s) (group2 s) (group3 s) (group4 s ++ l)
                    (in_group2 s) (in_group3 s) (in_group4 s)
  end.

(** Rule 5: a follower joins the active group, or is dropped. *)
Definition follow (blk : TextBlock) (s : state) : state :=
  match active_group s with
  | Some sec => add_section sec [blk] s
  | None => s
  end.

Definition apply_rule (r : option rule) (blk : TextBlock) (s : state) : state :=
  match r with
  | Some RMarker => add_marker [blk] s
  | Some (RHeading sec) => set_flags (flags_for sec) (add_section sec [blk] s)
  | None => follow blk s
  end.

(** Number of section flags that are set. *)
Definition active_count (s : state) : nat :=
  (if in_group2 s then 1 else 0) + (if in_group3 s then 1 else 0)
  + (if in_group4 s then 1 else 0).

(** ** The partition of the input *)

(** Where one input position ends up. *)
Inductive owner : Type :=
| OMarker
| OSection (sec : section)
| ODropped.

Definition owner_eqb (o o' : owner) : bool :=
  match o, o' with
  | OMarker, OMarker => true
  | OSection SecA, OSection SecA => true
  | OSection SecB, OSection SecB => true
  | OSection SecC, OSection SecC => true
  | ODropped, ODropped => true
  | _, _ => false
  end.

(** The blocks at the positions that [owners] gives to [o], in order. *)
Fixpoint select (o : owner) (owners : list owner) (blocks : list TextBlock)
  : list TextBlock :=
  match owners, blocks with
  | ow :: ows, b :: bs =>
      if owner_eqb o ow then b :: select o ows bs else select o ows bs
  | _, _ => []
  end.

(** The [else: pass] branch: no keyword in the text and no flag set. *)
Definition no_keyword (blk : TextBlock) : bool :=
  negb (PyStr.contains "restricted" (txt_clean blk))
  && negb (PyStr.contains "programme/project status report" (txt_clean blk))
  && negb (PyStr.contains "description" (txt_clean blk))
  && negb (PyStr.contains "report parameters" (txt_clean blk)).

Definition no_section_active (s : state) : bool :=
  negb (in_group2 s) && negb (in_group3 s) && negb (in_group4 s).

(** The blocks that the loop, started in [s], passes over. *)
Fixpoint dropped_from (s : state) (blocks : list TextBlock) : list TextBlock :=
  match blocks with
  | [] => []
  | b :: r =>
      if no_keyword b && no_section_active s
      then b :: dropped_from (step s b) r
      else dropped_from (step s b) r
  end.

Definition dropped_blocks (blocks : list TextBlock) : list TextBlock :=
  dropped_from init blocks.

Definition owner_of (s : state) (blk : TextBlock) : owner :=
  match classify blk with
  | Some RMarker => OMarker
  | Some (RHeading sec) => OSection sec
  | None =>
      match active_group s with
      | Some sec => OSection sec
      | None => ODropped
      end
  end.

Fixpoint owners_from (s : state) (blocks : list TextBlock) : list owner :=
  match blocks with
  | [] => []
  | b :: r => owner_of s b :: owners_from (step s b) r
  end.

Definition pick (o ow : owner) (blk : TextBlock) : list TextBlock :=
  if owner_eqb o ow then [blk] else [].

(** A block as the scenarios of the specification give it: its text and its
    top coordinate; the other fields are free. *)
Definition is_fragment (blk : TextBlock) (txt : string) (top : Q) : Prop :=
  text blk = txt /\ float_eq (y0 blk) (Finite top) = true.

(** ** Reading the result of group_blocks *)

(** [txt_clean] holds the marker keyword. *)
Definition is_marker (blk : TextBlock) : bool :=
  PyStr.contains "restricted" (txt_clean blk).

(** Position of a section's group in the returned list. *)
Definition section_index (sec : section) : nat :=
  match sec with
  | SecA => 1
  | SecB => 2
  | SecC => 3
  end.

Definition marker_group (groups : list (list TextBlock)) : list TextBlock :=
  nth 0 groups [].

Definition section_group (sec : section) (groups : list (list TextBlock))
  : list TextBlock :=
  nth (section_index sec) groups [].

(** Group by group, [gs] with [es] appended. *)
Definition extend_groups (gs es : list (list TextBlock))
  : list (list TextBlock) :=
  map (fun p => fst p ++ snd p) (combine gs es).

(** Every character is whitespace for [str.strip]. *)
Fixpoint all_space (s : string) : bool :=
  match s with
  | EmptyString => true
  | String c r => PyStr.isspace c && all_space r
  end.

(** The same function applied to every block a state holds. *)
Definition map_state (f : TextBlock -> TextBlock) (s : state) : state :=
  mkState (map f (group1 s)) (map f (group2 s)) (map f (group3 s))
          (map f (group4 s)) (in_group2 s) (in_group3 s) (in_group4 s).

(** Two states that differ in group 1 at most. *)
Definition same_sections (s s' : state) : Prop :=
  group2 s = group2 s' /\ group3 s = group3 s' /\ group4 s = group4 s'
  /\ flags s = flags s'.

(** A group that is not empty starts with a heading of its section. *)
Definition headed (sec : section) (g : list TextBlock) : Prop :=
  match g with
  | [] => True
  | h :: _ => classify h = Some (RHeading sec)
  end.

(** The invariant behind heading inclusion: a set flag means its group is
    not empty, and a group that is not empty starts with its heading. *)
Definition heading_invariant (s : state) : Prop :=
  (in_group2 s = true -> group2 s <> []) /\ headed SecA (group2 s)
  /\ (in_group3 s = true -> group3 s <> []) /\ headed SecB (group3 s)
  /\ (in_group4 s = true -> group4 s <> []) /\ headed SecC (group4 s).

(** ** Sample blocks *)

Module Sample.
Definition block (txt : string) (top left : Q) (no : Z) : TextBlock :=
  mkTextBlock (Finite left) (Finite top)
              (Finite (left + 200)) (Finite (top + 8)) txt no.

Definition restricted := block "RESTRICTED" 0 72 0.
Definition status := block "Programme/Project Status Report" 10 72 1.
Definition lineA := block "line A" 20 72 2.
Definition description := block "Description" 30 72 3.
Definition lineB := block "line B" 40 72 4.
Definition parameters := block "Report Parameters" 50 72 5.
Definition lineC := block "line C" 60 72 6.
Definition orphan := block "orphan" (-5) 72 7.
Definition status_again := block "  PROGRAMME/PROJECT STATUS REPORT (cont.)
" 70 72 8.
Definition both := block "Description of Report Parameters" 80 72 9.
(** Two blocks at the same place: 1/2 and 2/4 are [==]. *)
Definition tie1 := block "first" (1 # 2) 72 10.
Definition tie2 := block "second" (2 # 4) 72 11.
(** A block whose top is not a number. *)
Definition adrift : TextBlock :=
  mkTextBlock (Finite 72) NaN (Finite 272) NaN "adrift" 12.
(** Blocks named after their top. *)
Definition at_top (top : Q) (no : Z) : TextBlock := block "row" top 72 no.
(** A raw block as the page hands it over. *)
Definition raw_description : RawBlock :=
  (Finite 72, Finite 10, Finite 272, Finite 18, "Description", 0%Z, 0%Z).
(** Tops 2, NaN, 1. *)
Definition drifting : list TextBlock := [at_top 2 0; adrift; at_top 1 1].
(** Tops 0, 5, 6, 7, NaN, 1, 3, 1. *)
Definition tied : list TextBlock :=
  [at_top 0 0; at_top 5 1; at_top 6 2; at_top 7 3; adrift;
   at_top 1 4; at_top 3 5; at_top 1 6].
End Sample.

Import Sample.

(** ** More sample blocks *)

Module MoreSamples.
(** The same place as [Sample.status], further right. *)
Definition status_right := block "Programme/Project Status Report" 10 300 13.
Definition shouted := block "DESCRIPTION" 30 72 14.
Definition padded := block "   Description
" 30 72 15.
(** A block whose left is not a number. *)
Definition leftless : TextBlock :=
  mkTextBlock NaN (Finite 15) NaN (Finite 23) "leftless" 16.
(** Forgets where a block is and what number it has. *)
Definition unplace (blk : TextBlock) : TextBlock :=
  mkTextBlock NaN NaN NaN NaN (text blk) 0.
End MoreSamples.

Import MoreSamples.

(** * Properties *)

(** ** Substring test *)

Lemma startswith_spec (p s : string) :
  PyStr.startswith s p = true <-> exists post, s = (p ++ post)%string.
Proof.
  revert s; induction p as [|a p IH]; intros s; simpl.
  - split; [intros _; now exists s | reflexivity].
  - destruct s as [|b s]; simpl.
    + split; [discriminate | intros [post H]; discriminate].
    + rewrite andb_true_iff, IH. split.
      * intros [Hab [post ->]]. apply Ascii.eqb_eq in Hab as ->. now exists post.
      * intros [post H]. injection H as -> ->. split.
        -- apply Ascii.eqb_refl.
        -- now exists post.
Qed.

(** [contains] is Python's [in]: some split of [s] has [sub] in the middle. *)
Lemma contains_spec (sub s : string) :
  PyStr.contains sub s = true <-> exists pre post, s = (pre ++ sub ++ post)%string.
Proof.
  induction s as [|c s IH].
  - simpl. rewrite orb_false_r, startswith_spec. split.
    + intros [post H]. now exists "", post.
    + intros [pre [post H]]. destruct pre; [now exists post | discriminate].
  - cbn [PyStr.contains]. rewrite orb_true_iff, startswith_spec, IH. split.
    + intros [[post H] | [pre [post H]]].
      * now exists "", post.
      * exists (String c pre), post. simpl. now rewrite H.
    + intros [pre [post H]]. destruct pre as [|d pre].
      * left. now exists post.
      * right. simpl in H. injection H as _ H. now exists pre, post.
Qed.

(** ** The order on sort keys *)

Lemma float_lt_iff (a b : pyfloat) : float_lt a b = true <-> FLt a b.
Proof.
  destruct a as [p|], b as [q|]; simpl; try (split; [discriminate | tauto]).
  rewrite Qlt_alt. destruct (p ?= q)%Q; split; congruence.
Qed.

Lemma float_eq_iff (a b : pyfloat) : float_eq a b = true <-> FEq a b.
Proof.
  destruct a as [p|], b as [q|]; simpl; try (split; [discriminate | tauto]).
  apply Qeq_bool_iff.
Qed.

Lemma FLt_not_FEq (a b : pyfloat) : FLt a b -> ~ FEq a b.
Proof. destruct a, b; simpl; try tauto. lra. Qed.

Lemma tuple_lt_iff (v w : pyfloat * pyfloat) :
  tuple_lt v w = true <->
  FLt (fst v) (fst w) \/ (FEq (fst v) (fst w) /\ FLt (snd v) (snd w)).
Proof.
  unfold tuple_lt.
  destruct (float_eq (fst v) (fst w)) eqn:E1; simpl.
  - apply float_eq_iff in E1.
    destruct (float_eq (snd v) (snd w)) eqn:E2; simpl.
    + apply float_eq_iff in E2. split; [discriminate|].
      intros [H | [_ H]].
      * now apply FLt_not_FEq in H.
      * now apply FLt_not_FEq in H.
    + rewrite float_lt_iff. split; [auto|].
      intros [H | [_ H]]; [now apply FLt_not_FEq in H | exact H].
  - assert (Hne : ~ FEq (fst v) (fst w)).
    { intros H. apply float_eq_iff in H. congruence. }
    rewrite float_lt_iff. tauto.
Qed.

Lemma tuple_lt_irrefl (v : pyfloat * pyfloat) : tuple_lt v v = false.
Proof.
  apply not_true_iff_false. rewrite tuple_lt_iff.
  destruct v as [[p|] [q|]]; simpl; try tauto; lra.
Qed.

Lemma tuple_lt_trans (u v w : pyfloat * pyfloat) :
  tuple_lt u v = true -> tuple_lt v w = true -> tuple_lt u w = true.
Proof.
  rewrite !tuple_lt_iff.
  destruct u as [[a1|] [a2|]], v as [[b1|] [b2|]], w as [[c1|] [c2|]];
    simpl; try tauto; lra.
Qed.

(** Among keys without NaN, "not less" is transitive: the order is total. *)
Lemma tuple_lt_negtrans (a b c : TextBlock) :
  no_nan a = true -> no_nan b = true -> no_nan c = true ->
  tuple_lt (sort_key a) (sort_key b) = false ->
  tuple_lt (sort_key b) (sort_key c) = false ->
  tuple_lt (sort_key a) (sort_key c) = false.
Proof.
  unfold no_nan, sort_key. rewrite <- !not_true_iff_false, !tuple_lt_iff.
  destruct (y0 a), (x0 a), (y0 b), (x0 b), (y0 c), (x0 c);
    simpl; try discriminate; intros _ _ _; lra.
Qed.

Lemma same_key_incomparable (a b : TextBlock) :
  no_nan a = true -> no_nan b = true ->
  same_key a b =
  negb (tuple_lt (sort_key a) (sort_key b))
  && negb (tuple_lt (sort_key b) (sort_key a)).
Proof.
  unfold no_nan, same_key. intros Ha Hb.
  apply eq_true_iff_eq.
  rewrite !andb_true_iff, !negb_true_iff, <- !not_true_iff_false,
    !float_eq_iff, !tuple_lt_iff.
  unfold sort_key.
  destruct (y0 a), (x0 a), (y0 b), (x0 b); simpl in *; try discriminate; lra.
Qed.

Lemma same_key_refl (a : TextBlock) : no_nan a = true -> same_key a a = true.
Proof.
  unfold no_nan, same_key. rewrite !andb_true_iff, !float_eq_iff.
  destruct (y0 a), (x0 a); simpl; try (intros [? ?]; discriminate).
  intros _. split; reflexivity.
Qed.

(** Keys that are [==] hold no NaN. *)
Lemma same_key_no_nan (a b : TextBlock) :
  same_key a b = true -> no_nan a = true /\ no_nan b = true.
Proof.
  unfold no_nan, same_key.
  destruct (y0 a), (x0 a), (y0 b), (x0 b); simpl;
    rewrite ?andb_false_r; try discriminate; auto.
Qed.

Lemma top_lt_key_lt (a b : TextBlock) :
  float_lt (y0 a) (y0 b) = true -> tuple_lt (sort_key a) (sort_key b) = true.
Proof. intros H. apply tuple_lt_iff. left. now apply float_lt_iff. Qed.

(** Blocks whose tops are numbers, no two of them [==], are totally ordered
    by their tops alone, whatever their lefts are. *)
Lemma distinct_tops_negtrans (L : list TextBlock) :
  (forall a, In a L -> is_nan (y0 a) = false) ->
  (forall a c, In a L -> In c L -> float_eq (y0 a) (y0 c) = true -> a = c) ->
  forall a b c, In a L -> In b L -> In c L ->
    tuple_lt (sort_key a) (sort_key b) = false ->
    tuple_lt (sort_key b) (sort_key c) = false ->
    tuple_lt (sort_key a) (sort_key c) = false.
Proof.
  intros Hnum Hinj a b c Ha Hb Hc Hab Hbc.
  destruct (float_eq (y0 a) (y0 c)) eqn:Eac.
  - rewrite (Hinj a c Ha Hc Eac). apply tuple_lt_irrefl.
  - apply not_true_iff_false. apply not_true_iff_false in Hab, Hbc, Eac.
    rewrite tuple_lt_iff in *. rewrite float_eq_iff in Eac.
    pose proof (Hnum a Ha) as Na. pose proof (Hnum b Hb) as Nb.
    pose proof (Hnum c Hc) as Nc. unfold sort_key in *. simpl in *.
    destruct (y0 a), (y0 b), (y0 c); try discriminate. simpl in *.
    intros [H | [H _]]; [|contradiction].
    apply Hab. left. apply Qnot_le_lt. intros Hqp.
    apply Hbc. left. lra.
Qed.

(** ** Occurrence order *)

Lemma filter_split_inv {A : Type} (p : A -> bool) (l m1 m2 : list A) (x : A) :
  filter p l = m1 ++ x :: m2 ->
  exists l1 l2, l = l1 ++ x :: l2 /\ filter p l1 = m1 /\ filter p l2 = m2.
Proof.
  revert m1. induction l as [|a l IH]; intros m1 H; simpl in H.
  - destruct m1; discriminate.
  - destruct (p a) eqn:Hpa.
    + destruct m1 as [|b m1]; simpl in H; injection H as -> H.
      * exists [], l. simpl. auto.
      * destruct (IH _ H) as (l1 & l2 & -> & H1 & H2).
        exists (b :: l1), l2. simpl. rewrite Hpa, H1. auto.
    + destruct (IH _ H) as (l1 & l2 & -> & H1 & H2).
      exists (a :: l1), l2. simpl. rewrite Hpa. auto.
Qed.

Lemma Before_filter {A : Type} (p : A -> bool) (x y : A) (l : list A) :
  p x = true -> p y = true -> (Before x y l <-> Before x y (filter p l)).
Proof.
  intros Hx Hy. split.
  - intros (l1 & l2 & l3 & ->).
    exists (filter p l1), (filter p l2), (filter p l3).
    rewrite filter_app. simpl. rewrite Hx, filter_app. simpl. now rewrite Hy.
  - intros (m1 & m2 & m3 & H).
    apply filter_split_inv in H as (l1 & r & -> & _ & H).
    apply filter_split_inv in H as (l2 & l3 & -> & _ & _).
    now exists l1, l2, l3.
Qed.

(** ** Lists in order *)

Lemma StronglySorted_app_inv {A : Type} (R : A -> A -> Prop) (l1 l2 : list A) :
  StronglySorted R (l1 ++ l2) ->
  StronglySorted R l1 /\ StronglySorted R l2
  /\ Forall (fun x => Forall (R x) l2) l1.
Proof.
  induction l1 as [|a l1 IH]; simpl; intros H.
  - repeat split; [constructor | exact H | constructor].
  - apply StronglySorted_inv in H as [H Ha].
    destruct (IH H) as (H1 & H2 & H12).
    apply Forall_app in Ha as [Ha1 Ha2].
    repeat split; [constructor | | constructor]; assumption.
Qed.

Lemma StronglySorted_app {A : Type} (R : A -> A -> Prop) (l1 l2 : list A) :
  StronglySorted R l1 -> StronglySorted R l2 ->
  Forall (fun x => Forall (R x) l2) l1 ->
  StronglySorted R (l1 ++ l2).
Proof.
  induction 1 as [|a l1 H1 IH Ha]; simpl; intros H2 H12; [exact H2|].
  apply Forall_cons_iff in H12 as [Ha2 H12].
  constructor; [now apply IH|]. apply Forall_app. now split.
Qed.

Lemma StronglySorted_rev {A : Type} (R : A -> A -> Prop) (l : list A) :
  StronglySorted R l -> StronglySorted (fun x y => R y x) (rev l).
Proof.
  induction 1 as [|a l H IH Ha]; simpl; [constructor|].
  apply StronglySorted_app; [exact IH | repeat constructor|].
  apply Forall_rev. eapply Forall_impl; [|exact Ha].
  intros x Hx. now repeat constructor.
Qed.

Lemma Forall_firstn {A : Type} (P : A -> Prop) (n : nat) (l : list A) :
  Forall P l -> Forall P (firstn n l).
Proof.
  intros H. rewrite <- (firstn_skipn n l) in H. now apply Forall_app in H.
Qed.

Lemma Forall_skipn {A : Type} (P : A -> Prop) (n : nat) (l : list A) :
  Forall P l -> Forall P (skipn n l).
Proof.
  intros H. rewrite <- (firstn_skipn n l) in H. now apply Forall_app in H.
Qed.

(** ** The sort on keys that are totally ordered among the items at hand *)

Section SortTheory.
Context {A K : Type}.
Variable key : A -> K.
Variable lt : K -> K -> bool.
(** The items whose keys are totally ordered. *)
Variable ok : A -> Prop.
Hypothesis lt_irrefl : forall u, lt u u = false.
Hypothesis lt_trans :
  forall u v w, lt u v = true -> lt v w = true -> lt u w = true.
Hypothesis lt_negtrans :
  forall a b c, ok a -> ok b -> ok c ->
    lt (key a) (key b) = false -> lt (key b) (key c) = false ->
    lt (key a) (key c) = false.

Local Abbreviation leK := (le_key key lt).
Local Abbreviation ltK := (lt_key key lt).
Local Abbreviation eqvK := (equiv_key key lt).
Local Abbreviation ins := (insert_run key lt).
Local Abbreviation bins := (binary_insert key lt).
Local Abbreviation srt := (list_sort key lt).

Lemma lt_asym u v : lt u v = true -> lt v u = false.
Proof.
  intros H. destruct (lt v u) eqn:E; [|reflexivity].
  rewrite <- (lt_irrefl u). symmetry. eapply lt_trans; eassumption.
Qed.

(** *** Rearrangement, whatever the keys *)

Lemma binary_insert_perm fuel x seg : Permutation (bins fuel x seg) (x :: seg).
Proof.
  revert seg. induction fuel as [|fuel IH]; intros seg; simpl; [reflexivity|].
  pose proof (firstn_skipn (Nat.div2 (List.length seg)) seg) as Hseg.
  destruct (skipn (Nat.div2 (List.length seg)) seg) as [|e upper];
    [reflexivity|].
  remember (firstn (Nat.div2 (List.length seg)) seg) as L eqn:HL. clear HL.
  subst seg. destruct (lt (key x) (key e)); rewrite IH.
  - reflexivity.
  - symmetry. etransitivity; [apply Permutation_middle|].
    apply Permutation_app_head, perm_swap.
Qed.

Lemma fold_binary_perm l acc :
  Permutation
    (fold_left (fun run x => bins (List.length run) x run) l acc) (acc ++ l).
Proof.
  revert acc. induction l as [|x l IH]; intros acc; simpl.
  - now rewrite app_nil_r.
  - rewrite IH, binary_insert_perm. apply Permutation_middle.
Qed.

Lemma initial_run_perm l :
  Permutation (initial_run key lt l) (firstn (fst (count_run key lt l)) l).
Proof.
  unfold initial_run. destruct (count_run key lt l) as [n [|]]; simpl;
    [symmetry; apply Permutation_rev | reflexivity].
Qed.

Lemma list_sort_perm l : Permutation (srt l) l.
Proof.
  unfold list_sort. rewrite fold_binary_perm, initial_run_perm.
  now rewrite firstn_skipn.
Qed.

(** *** Linear insertion *)

Lemma insert_run_perm x run : Permutation (ins x run) (x :: run).
Proof.
  induction run as [|y r IH]; simpl; [reflexivity|].
  destruct (lt (key x) (key y)); [reflexivity|].
  rewrite IH. apply perm_swap.
Qed.

Lemma insert_run_sorted x run :
  StronglySorted leK run -> StronglySorted leK (ins x run).
Proof.
  induction 1 as [|y r Hr IH Hy]; simpl.
  - constructor; constructor.
  - destruct (lt (key x) (key y)) eqn:E.
    + constructor; [constructor; assumption|].
      constructor; [apply lt_asym, E|].
      eapply Forall_impl; [|exact Hy]. intros z Hz. unfold le_key in *.
      destruct (lt (key z) (key x)) eqn:Ezx; [|reflexivity].
      rewrite <- Hz. symmetry. eapply lt_trans; eassumption.
    + constructor; [exact IH|].
      eapply Permutation_Forall; [symmetry; apply insert_run_perm|].
      constructor; assumption.
Qed.

Lemma insert_run_app_lt x L e R :
  lt (key x) (key e) = true -> ins x (L ++ e :: R) = ins x L ++ e :: R.
Proof.
  intros He. induction L as [|y L IH]; simpl; [now rewrite He|].
  destruct (lt (key x) (key y)); [reflexivity | now rewrite IH].
Qed.

Lemma insert_run_app_ge x L R :
  Forall (fun y => lt (key x) (key y) = false) L ->
  ins x (L ++ R) = L ++ ins x R.
Proof.
  induction 1 as [|y L Hy _ IH]; simpl; [reflexivity|].
  now rewrite Hy, IH.
Qed.

(** On a sorted segment, binary search finds the place of linear
    insertion. *)
Lemma binary_insert_linear fuel x seg :
  List.length seg <= fuel -> ok x -> Forall ok seg ->
  StronglySorted leK seg ->
  bins fuel x seg = ins x seg.
Proof.
  revert seg. induction fuel as [|fuel IH]; intros seg Hlen Hx Hok Hs.
  - destruct seg; [reflexivity | simpl in Hlen; lia].
  - simpl.
    pose proof (firstn_skipn (Nat.div2 (List.length seg)) seg) as Hseg.
    pose proof (length_firstn (Nat.div2 (List.length seg)) seg) as HlenL.
    destruct (skipn (Nat.div2 (List.length seg)) seg) as [|e upper] eqn:E.
    + apply skipn_all_iff in E.
      destruct seg as [|y seg]; [reflexivity|].
      pose proof (Nat.lt_div2 (List.length (y :: seg))) as Hd.
      simpl in Hd, E. lia.
    + clear E.
      remember (firstn (Nat.div2 (List.length seg)) seg) as L eqn:HL. clear HL.
      assert (Hlow : List.length L <= fuel /\ List.length upper <= fuel).
      { pose proof (f_equal (@List.length A) Hseg) as Hl.
        rewrite length_app in Hl. simpl in Hl.
        pose proof (Nat.lt_div2 (List.length seg)). lia. }
      clear HlenL. subst seg.
      apply StronglySorted_app_inv in Hs as (Hs1 & Hs2 & Hs12).
      apply Forall_app in Hok as [Hok1 Hok2].
      apply Forall_cons_iff in Hok2 as [He Hok2].
      destruct (lt (key x) (key e)) eqn:Exe.
      * rewrite IH by tauto. now rewrite insert_run_app_lt.
      * apply StronglySorted_inv in Hs2 as [Hs2 _].
        rewrite IH by tauto.
        rewrite insert_run_app_ge; [simpl; now rewrite Exe|].
        rewrite Forall_forall in Hs12, Hok1 |- *. intros y Hy.
        specialize (Hs12 y Hy). apply Forall_inv in Hs12.
        apply (lt_negtrans x e y); auto.
Qed.

Lemma fold_binary_linear l acc :
  Forall ok acc -> Forall ok l -> StronglySorted leK acc ->
  fold_left (fun run x => bins (List.length run) x run) l acc
  = fold_left (fun run x => ins x run) l acc.
Proof.
  intros Hacc Hl. revert acc Hacc.
  induction Hl as [|x l Hx Hl IH]; intros acc Hacc Hs; simpl; [reflexivity|].
  rewrite binary_insert_linear by auto.
  apply IH; [|now apply insert_run_sorted].
  eapply Permutation_Forall; [symmetry; apply insert_run_perm|].
  now constructor.
Qed.

Lemma fold_insert_sorted l acc :
  StronglySorted leK acc ->
  StronglySorted leK (fold_left (fun run x => ins x run) l acc).
Proof.
  revert acc. induction l as [|x l IH]; intros acc Hacc; simpl.
  - exact Hacc.
  - apply IH, insert_run_sorted, Hacc.
Qed.

(** Two items of one class of equal keys: nothing greater than one is in
    the class of the other. *)
Lemma equiv_key_lt_excl c x z :
  ok c -> ok x -> ok z ->
  eqvK c x = true -> lt (key x) (key z) = true -> eqvK c z = false.
Proof.
  unfold equiv_key. intros Hc Hx Hz Ecx Hxz.
  apply andb_true_iff in Ecx as [Hcx Hxc].
  apply negb_true_iff in Hcx, Hxc.
  destruct (lt (key c) (key z)) eqn:Ecz; [reflexivity|].
  rewrite (lt_negtrans x c z Hx Hc Hz Hxc Ecz) in Hxz. discriminate.
Qed.

Lemma filter_none (p : A -> bool) (l : list A) :
  (forall z, In z l -> p z = false) -> filter p l = [].
Proof.
  induction l as [|z t IH]; intros H; [reflexivity|].
  simpl. rewrite (H z) by now left.
  apply IH. intros w Hw. apply H. now right.
Qed.

(** Stability of one insertion: within a class of equal keys the pivot goes
    last. *)
Lemma insert_run_filter c x run :
  ok c -> ok x -> Forall ok run -> StronglySorted leK run ->
  filter (eqvK c) (ins x run)
  = filter (eqvK c) run ++ (if eqvK c x then [x] else []).
Proof.
  intros Hc Hx Hok Hs. revert Hok.
  induction Hs as [|y r Hr IH Hy]; intros Hok; simpl.
  - destruct (equiv_key key lt c x); reflexivity.
  - apply Forall_cons_iff in Hok as [Hoky Hokr].
    destruct (lt (key x) (key y)) eqn:E; simpl.
    + destruct (equiv_key key lt c x) eqn:Ecx; [|now rewrite app_nil_r].
      assert (Hnil : filter (equiv_key key lt c) (y :: r) = []).
      { apply filter_none. intros z Hz.
        assert (Hokz : ok z).
        { destruct Hz as [<- | Hz]; [exact Hoky|].
          rewrite Forall_forall in Hokr. now apply Hokr. }
        apply (equiv_key_lt_excl c x z); auto.
        destruct Hz as [<- | Hz]; [exact E|].
        rewrite Forall_forall in Hy. specialize (Hy z Hz).
        unfold le_key in Hy.
        destruct (lt (key x) (key z)) eqn:Exz; [reflexivity|].
        rewrite <- E. symmetry. apply (lt_negtrans x z y); auto. }
      simpl in Hnil. now rewrite Hnil.
    + rewrite IH by assumption.
      destruct (equiv_key key lt c y); reflexivity.
Qed.

Lemma fold_insert_filter c l acc :
  ok c -> Forall ok acc -> Forall ok l -> StronglySorted leK acc ->
  filter (eqvK c) (fold_left (fun run x => ins x run) l acc)
  = filter (eqvK c) acc ++ filter (eqvK c) l.
Proof.
  intros Hc Hacc Hl. revert acc Hacc.
  induction Hl as [|x l Hx Hl IH]; intros acc Hacc Hs; simpl.
  - now rewrite app_nil_r.
  - rewrite IH.
    + rewrite insert_run_filter by assumption.
      rewrite <- app_assoc. now destruct (equiv_key key lt c x).
    + eapply Permutation_Forall; [symmetry; apply insert_run_perm|].
      now constructor.
    + now apply insert_run_sorted.
Qed.
(** *** The leading run *)

Lemma ascending_run_sorted prev l :
  ok prev -> Forall ok l ->
  StronglySorted leK (prev :: firstn (ascending_run key lt prev l) l).
Proof.
  intros Hp Hl. revert prev Hp.
  induction Hl as [|x r Hx Hr IH]; intros prev Hp; simpl.
  - repeat constructor.
  - destruct (lt (key x) (key prev)) eqn:E; simpl; [repeat constructor|].
    specialize (IH x Hx). constructor; [exact IH|].
    constructor; [exact E|].
    apply StronglySorted_inv in IH as [_ IH].
    rewrite Forall_forall in IH |- *. intros z Hz.
    assert (Hokz : ok z).
    { apply Forall_firstn with (n := ascending_run key lt x r) in Hr.
      rewrite Forall_forall in Hr. now apply Hr. }
    unfold le_key in *. apply (lt_negtrans z x prev); auto.
Qed.

Lemma descending_run_sorted prev l :
  StronglySorted (fun a b => ltK b a)
                 (prev :: firstn (descending_run key lt prev l) l).
Proof.
  revert prev. induction l as [|x r IH]; intros prev; simpl.
  - repeat constructor.
  - destruct (lt (key x) (key prev)) eqn:E; simpl; [|repeat constructor].
    specialize (IH x). constructor; [exact IH|].
    constructor; [exact E|].
    apply StronglySorted_inv in IH as [_ IH].
    eapply Forall_impl; [|exact IH]. intros z Hz. unfold lt_key in *.
    eapply lt_trans; eassumption.
Qed.

(** The two shapes of the leading run of a non-empty list. *)
Lemma initial_run_cases x t :
  (initial_run key lt (x :: t) = x :: firstn (ascending_run key lt x t) t
   /\ fst (count_run key lt (x :: t)) = S (ascending_run key lt x t))
  \/ (initial_run key lt (x :: t)
       = rev (x :: firstn (descending_run key lt x t) t)
      /\ fst (count_run key lt (x :: t)) = S (descending_run key lt x t)).
Proof.
  destruct t as [|y r]; [left; split; reflexivity|].
  unfold initial_run, count_run. cbn [ascending_run descending_run].
  destruct (lt (key y) (key x)); [right | left]; split; reflexivity.
Qed.

Lemma initial_run_sorted l :
  Forall ok l -> StronglySorted leK (initial_run key lt l).
Proof.
  intros Hl. destruct l as [|x t]; [constructor|].
  apply Forall_cons_iff in Hl as [Hx Ht].
  destruct (initial_run_cases x t) as [[-> _] | [-> _]].
  - now apply ascending_run_sorted.
  - pose proof (StronglySorted_rev _ _ (descending_run_sorted x t)) as H.
    clear -H lt_irrefl lt_trans.
    induction H as [|a m Hm IH Ha]; constructor; [exact IH|].
    eapply Forall_impl; [|exact Ha]. intros z Hz. now apply lt_asym.
Qed.

(** A strictly descending run holds at most one item of any class of equal
    keys, so reversing it disturbs no class. *)
Lemma descending_class_small c m :
  ok c -> Forall ok m -> StronglySorted (fun a b => ltK b a) m ->
  List.length (filter (eqvK c) m) <= 1.
Proof.
  intros Hc Hok Hs. revert Hok.
  induction Hs as [|a m Hm IH Ha]; intros Hok; simpl; [lia|].
  apply Forall_cons_iff in Hok as [Hoka Hokm].
  destruct (equiv_key key lt c a) eqn:Eca; [|now apply IH].
  rewrite filter_none; [simpl; lia|].
  intros z Hz. rewrite Forall_forall in Ha, Hokm.
  destruct (equiv_key key lt c z) eqn:Ecz; [|reflexivity].
  rewrite (equiv_key_lt_excl c z a Hc (Hokm z Hz) Hoka Ecz (Ha z Hz)) in Eca.
  discriminate.
Qed.

Lemma initial_run_filter c l :
  ok c -> Forall ok l ->
  filter (eqvK c) (initial_run key lt l)
  = filter (eqvK c) (firstn (fst (count_run key lt l)) l).
Proof.
  intros Hc Hl. destruct l as [|x t]; [reflexivity|].
  destruct (initial_run_cases x t) as [[-> ->] | [-> ->]]; [reflexivity|].
  cbn [firstn]. rewrite filter_rev.
  assert (Hsmall : List.length
            (filter (eqvK c) (x :: firstn (descending_run key lt x t) t)) <= 1).
  { apply descending_class_small; [exact Hc | | apply descending_run_sorted].
    apply Forall_cons_iff in Hl as [Hx Ht].
    constructor; [exact Hx | now apply Forall_firstn]. }
  destruct (filter (eqvK c) (x :: firstn (descending_run key lt x t) t))
    as [|a [|b r]]; [reflexivity | reflexivity | simpl in Hsmall; lia].
Qed.

(** *** The sort *)

Lemma list_sort_linear l :
  Forall ok l ->
  srt l = fold_left (fun run x => ins x run)
                    (skipn (fst (count_run key lt l)) l) (initial_run key lt l).
Proof.
  intros Hl. unfold list_sort. apply fold_binary_linear.
  - eapply Permutation_Forall; [symmetry; apply initial_run_perm|].
    now apply Forall_firstn.
  - now apply Forall_skipn.
  - now apply initial_run_sorted.
Qed.

Lemma list_sort_sorted l : Forall ok l -> StronglySorted leK (srt l).
Proof.
  intros Hl. rewrite list_sort_linear by assumption.
  now apply fold_insert_sorted, initial_run_sorted.
Qed.

(** Stability: every class of equal keys keeps its input order. *)
Lemma list_sort_filter c l :
  ok c -> Forall ok l -> filter (eqvK c) (srt l) = filter (eqvK c) l.
Proof.
  intros Hc Hl. rewrite list_sort_linear by assumption.
  rewrite fold_insert_filter; auto using Forall_skipn, initial_run_sorted.
  - rewrite initial_run_filter by assumption.
    now rewrite <- filter_app, firstn_skipn.
  - eapply Permutation_Forall; [symmetry; apply initial_run_perm|].
    now apply Forall_firstn.
Qed.

Lemma sorted_no_inversion a b l :
  StronglySorted leK l -> lt (key a) (key b) = true -> ~ Before b a l.
Proof.
  intros Hs Hab (l1 & l2 & l3 & ->).
  apply StronglySorted_app_inv in Hs as (_ & Hs & _).
  apply StronglySorted_inv in Hs as [_ Hs].
  rewrite Forall_forall in Hs.
  assert (Hin : In a (l2 ++ a :: l3)) by (apply in_or_app; right; now left).
  specialize (Hs a Hin). unfold le_key in Hs. congruence.
Qed.

Lemma list_sort_before a b l :
  Forall ok l -> In a l -> In b l -> lt (key a) (key b) = true ->
  Before a b (srt l) /\ ~ Before b a (srt l).
Proof.
  intros Hl Ha Hb Hab.
  assert (Hno : ~ Before b a (srt l))
    by (apply sorted_no_inversion; [now apply list_sort_sorted | exact Hab]).
  split; [|exact Hno].
  assert (Ha' : In a (srt l))
    by (eapply Permutation_in; [symmetry; apply list_sort_perm | exact Ha]).
  assert (Hb' : In b (srt l))
    by (eapply Permutation_in; [symmetry; apply list_sort_perm | exact Hb]).
  apply in_split in Ha' as (l1 & r & Heq).
  rewrite Heq in Hb'. apply in_app_or in Hb' as [Hb' | [Hb' | Hb']].
  - exfalso. apply Hno. apply in_split in Hb' as (m1 & m2 & ->).
    exists m1, m2, r. rewrite Heq, <- app_assoc. reflexivity.
  - subst b. rewrite lt_irrefl in Hab. discriminate.
  - apply in_split in Hb' as (l2 & l3 & ->). now exists l1, l2, l3.
Qed.

(** A sorted list that rearranges a strictly sorted one is that list. *)
Lemma sorted_perm_unique l m :
  StronglySorted leK l -> StronglySorted ltK m -> Permutation l m -> l = m.
Proof.
  intros Hl. revert m. induction Hl as [|a l Hl IH Ha]; intros m Hm Hp.
  - apply Permutation_nil in Hp. now subst.
  - destruct m as [|b m];
      [apply Permutation_sym, Permutation_nil in Hp; discriminate|].
    apply StronglySorted_inv in Hm as [Hm Hb].
    assert (Hab : a = b).
    { assert (Hin : In a (b :: m))
        by (eapply Permutation_in; [exact Hp | now left]).
      destruct Hin as [-> | Hin]; [reflexivity|].
      rewrite Forall_forall in Hb. specialize (Hb a Hin).
      assert (Hin' : In b (a :: l))
        by (eapply Permutation_in; [symmetry; exact Hp | now left]).
      destruct Hin' as [-> | Hin']; [reflexivity|].
      rewrite Forall_forall in Ha. specialize (Ha b Hin').
      unfold le_key, lt_key in *. congruence. }
    subst b. f_equal. apply IH; [exact Hm|].
    eapply Permutation_cons_inv; exact Hp.
Qed.

Lemma list_sort_unique l m :
  Forall ok l -> StronglySorted ltK m -> Permutation l m -> srt l = m.
Proof.
  intros Hok Hm Hp.
  apply sorted_perm_unique; [now apply list_sort_sorted | exact Hm|].
  rewrite list_sort_perm. exact Hp.
Qed.
End SortTheory.

(** ** The sort seen through a coarser order

    The sort compares whole keys; what it yields is also in order for any
    total preorder that every comparison of keys respects, such as the order
    of the tops alone. *)

Section CoarseOrder.
Context {A K : Type}.
Variable key : A -> K.
Variable lt : K -> K -> bool.
Variable ok : A -> Prop.
Variable cle : A -> A -> Prop.
Hypothesis cle_trans :
  forall a b c, ok a -> ok b -> ok c -> cle a b -> cle b c -> cle a c.
Hypothesis lt_cle :
  forall a b, ok a -> ok b -> lt (key a) (key b) = true -> cle a b.
Hypothesis nlt_cle :
  forall a b, ok a -> ok b -> lt (key a) (key b) = false -> cle b a.

Lemma binary_insert_coarse fuel x seg :
  List.length seg <= fuel -> ok x -> Forall ok seg ->
  StronglySorted cle seg ->
  StronglySorted cle (binary_insert key lt fuel x seg).
Proof.
  revert seg. induction fuel as [|fuel IH]; intros seg Hlen Hx Hok Hs.
  - destruct seg; [repeat constructor | simpl in Hlen; lia].
  - simpl.
    pose proof (firstn_skipn (Nat.div2 (List.length seg)) seg) as Hseg.
    pose proof (length_firstn (Nat.div2 (List.length seg)) seg) as HlenL.
    destruct (skipn (Nat.div2 (List.length seg)) seg) as [|e upper] eqn:E.
    + apply skipn_all_iff in E.
      destruct seg as [|y seg]; [repeat constructor|].
      pose proof (Nat.lt_div2 (List.length (y :: seg))) as Hd.
      simpl in Hd, E. lia.
    + clear E.
      remember (firstn (Nat.div2 (List.length seg)) seg) as L eqn:HL. clear HL.
      assert (Hlow : List.length L <= fuel /\ List.length upper <= fuel).
      { pose proof (f_equal (@List.length A) Hseg) as Hl.
        rewrite length_app in Hl. simpl in Hl.
        pose proof (Nat.lt_div2 (List.length seg)). lia. }
      clear HlenL. subst seg.
      apply StronglySorted_app_inv in Hs as (Hs1 & Hs2 & Hs12).
      apply Forall_app in Hok as [Hok1 Hok2].
      pose proof Hok2 as Hok2'.
      apply Forall_cons_iff in Hok2 as [He Hok2].
      pose proof Hs2 as Hs2'.
      apply StronglySorted_inv in Hs2 as [Hs2 Heu].
      rewrite Forall_forall in Hok1, Hok2, Heu, Hs12.
      destruct (lt (key x) (key e)) eqn:Exe.
      * apply StronglySorted_app; [apply IH; tauto || (apply Forall_forall; auto)
                                  | exact Hs2' |].
        eapply Permutation_Forall;
          [symmetry; apply binary_insert_perm|].
        constructor; [|apply Forall_forall; exact Hs12].
        constructor; [now apply lt_cle|].
        apply Forall_forall. intros z Hz.
        apply (cle_trans x e z); auto.
      * assert (Hex : cle e x) by now apply nlt_cle.
        apply StronglySorted_app; [exact Hs1 | |].
        -- constructor;
             [apply IH; tauto || (apply Forall_forall; auto)|].
           eapply Permutation_Forall;
             [symmetry; apply binary_insert_perm|].
           constructor; [exact Hex | apply Forall_forall; exact Heu].
        -- apply Forall_forall. intros y Hy.
           pose proof (Hs12 y Hy) as Hy'.
           apply Forall_cons_iff in Hy' as [Hye Hyu].
           constructor; [exact Hye|].
           eapply Permutation_Forall;
             [symmetry; apply binary_insert_perm|].
           constructor; [|exact Hyu].
           apply (cle_trans y e x); auto.
Qed.

Lemma fold_binary_coarse l acc :
  Forall ok acc -> Forall ok l -> StronglySorted cle acc ->
  StronglySorted cle
    (fold_left (fun run x => binary_insert key lt (List.length run) x run)
               l acc).
Proof.
  intros Hacc Hl. revert acc Hacc.
  induction Hl as [|x l Hx Hl IH]; intros acc Hacc Hs; simpl; [exact Hs|].
  apply IH.
  - eapply Permutation_Forall; [symmetry; apply binary_insert_perm|].
    now constructor.
  - now apply binary_insert_coarse.
Qed.

Lemma ascending_run_coarse prev l :
  ok prev -> Forall ok l ->
  StronglySorted cle (prev :: firstn (ascending_run key lt prev l) l).
Proof.
  intros Hp Hl. revert prev Hp.
  induction Hl as [|x r Hx Hr IH]; intros prev Hp; simpl.
  - repeat constructor.
  - destruct (lt (key x) (key prev)) eqn:E; simpl; [repeat constructor|].
    specialize (IH x Hx). constructor; [exact IH|].
    assert (Hpx : cle prev x) by now apply nlt_cle.
    constructor; [exact Hpx|].
    apply StronglySorted_inv in IH as [_ IH].
    rewrite Forall_forall in IH |- *. intros z Hz.
    assert (Hokz : ok z).
    { apply Forall_firstn with (n := ascending_run key lt x r) in Hr.
      rewrite Forall_forall in Hr. now apply Hr. }
    apply (cle_trans prev x z); auto.
Qed.

Lemma descending_run_coarse prev l :
  ok prev -> Forall ok l ->
  StronglySorted (fun a b => cle b a)
                 (prev :: firstn (descending_run key lt prev l) l).
Proof.
  intros Hp Hl. revert prev Hp.
  induction Hl as [|x r Hx Hr IH]; intros prev Hp; simpl.
  - repeat constructor.
  - destruct (lt (key x) (key prev)) eqn:E; simpl; [|repeat constructor].
    specialize (IH x Hx). constructor; [exact IH|].
    assert (Hxp : cle x prev) by now apply lt_cle.
    constructor; [exact Hxp|].
    apply StronglySorted_inv in IH as [_ IH].
    rewrite Forall_forall in IH |- *. intros z Hz.
    assert (Hokz : ok z).
    { apply Forall_firstn with (n := descending_run key lt x r) in Hr.
      rewrite Forall_forall in Hr. now apply Hr. }
    apply (cle_trans z x prev); auto.
Qed.

Lemma list_sort_coarse l :
  Forall ok l -> StronglySorted cle (list_sort key lt l).
Proof.
  intros Hl. unfold list_sort. apply fold_binary_coarse.
  - eapply Permutation_Forall; [symmetry; apply initial_run_perm|].
    now apply Forall_firstn.
  - now apply Forall_skipn.
  - destruct l as [|x t]; [constructor|].
    apply Forall_cons_iff in Hl as [Hx Ht].
    destruct (initial_run_cases key lt x t) as [[-> _] | [-> _]].
    + now apply ascending_run_coarse.
    + apply (StronglySorted_rev (fun a b => cle b a)).
      now apply descending_run_coarse.
Qed.
End CoarseOrder.

Lemma before_or_behind {A : Type} (a b : A) (l : list A) :
  In a l -> In b l -> a <> b -> ~ Before b a l -> Before a b l.
Proof.
  intros Ha Hb Hne Hno.
  apply in_split in Ha as (l1 & r & ->).
  apply in_app_or in Hb as [Hb | [Hb | Hb]].
  - exfalso. apply Hno. apply in_split in Hb as (m1 & m2 & ->).
    exists m1, m2, r. now rewrite <- app_assoc.
  - contradiction.
  - apply in_split in Hb as (l2 & l3 & ->). now exists l1, l2, l3.
Qed.

(** ** The Sequencer: [blocks.sort(key=lambda blk: (blk.y0, blk.x0))] *)

Lemma TextBlock_eq_dec (a b : TextBlock) : {a = b} + {a <> b}.
Proof.
  assert (Hq : forall p q : Q, {p = q} + {p <> q}).
  { decide equality; [apply Pos.eq_dec | apply Z.eq_dec]. }
  assert (Hf : forall p q : pyfloat, {p = q} + {p <> q}).
  { decide equality. }
  decide equality; [apply Z.eq_dec | apply string_dec].
Defined.

Lemma Before_nil {A : Type} (x y : A) : ~ Before x y [].
Proof. intros (l1 & l2 & l3 & H). destruct l1; discriminate. Qed.

Lemma Before_cons {A : Type} (x y a : A) (l : list A) :
  Before x y (a :: l) -> (a = x /\ In y l) \/ Before x y l.
Proof.
  intros (l1 & l2 & l3 & H). destruct l1 as [|c l1]; simpl in H.
  - injection H as -> ->. left. split; [reflexivity|].
    apply in_or_app. right. now left.
  - injection H as -> ->. right. now exists l1, l2, l3.
Qed.

Lemma sort_blocks_perm (blocks : list TextBlock) :
  Permutation (sort_blocks blocks) blocks.
Proof. apply list_sort_perm. Qed.

Lemma sort_blocks_sorted (blocks : list TextBlock) :
  Forall (fun blk => no_nan blk = true) blocks ->
  StronglySorted (le_key sort_key tuple_lt) (sort_blocks blocks).
Proof.
  apply (list_sort_sorted sort_key tuple_lt (fun blk => no_nan blk = true)
           tuple_lt_irrefl tuple_lt_trans tuple_lt_negtrans).
Qed.

Lemma sort_blocks_filter (c : TextBlock) (blocks : list TextBlock) :
  no_nan c = true -> Forall (fun blk => no_nan blk = true) blocks ->
  filter (same_key c) (sort_blocks blocks) = filter (same_key c) blocks.
Proof.
  intros Hc Hok.
  assert (Hext : forall l, Forall (fun blk => no_nan blk = true) l ->
            filter (same_key c) l = filter (equiv_key sort_key tuple_lt c) l).
  { intros l Hl. apply filter_ext_in. intros a Ha.
    rewrite Forall_forall in Hl. apply same_key_incomparable; auto. }
  rewrite (Hext blocks Hok), Hext.
  - apply (list_sort_filter sort_key tuple_lt (fun blk => no_nan blk = true)
             tuple_lt_irrefl tuple_lt_trans tuple_lt_negtrans); assumption.
  - eapply Permutation_Forall; [symmetry; apply sort_blocks_perm | exact Hok].
Qed.

(** Without NaN the output is in non-decreasing key order: no block stands
    before one with a smaller key. *)
Lemma sort_blocks_ordered (blocks : list TextBlock) (a b : TextBlock) :
  Forall (fun blk => no_nan blk = true) blocks ->
  Before a b (sort_blocks blocks) ->
  tuple_lt (sort_key b) (sort_key a) = false.
Proof.
  intros Hok H.
  destruct (tuple_lt (sort_key b) (sort_key a)) eqn:E; [|reflexivity].
  exfalso. revert H.
  apply (sorted_no_inversion sort_key tuple_lt);
    [now apply sort_blocks_sorted | exact E].
Qed.

(** The tops alone, when they are numbers, are totally preordered, and every
    comparison of keys agrees with them. *)
Lemma top_le_trans (a b c : TextBlock) :
  is_nan (y0 a) = false -> is_nan (y0 b) = false -> is_nan (y0 c) = false ->
  top_le a b -> top_le b c -> top_le a c.
Proof.
  unfold top_le. intros Ha Hb Hc.
  rewrite <- !not_true_iff_false, !float_lt_iff.
  destruct (y0 a), (y0 b), (y0 c); try discriminate. simpl. lra.
Qed.

Lemma key_lt_top_le (a b : TextBlock) :
  is_nan (y0 a) = false -> is_nan (y0 b) = false ->
  tuple_lt (sort_key a) (sort_key b) = true -> top_le a b.
Proof.
  unfold top_le. intros Ha Hb.
  rewrite <- not_true_iff_false, tuple_lt_iff, float_lt_iff.
  unfold sort_key. simpl.
  destruct (y0 a), (y0 b); try discriminate. simpl. lra.
Qed.

Lemma key_nlt_top_le (a b : TextBlock) :
  is_nan (y0 a) = false -> is_nan (y0 b) = false ->
  tuple_lt (sort_key a) (sort_key b) = false -> top_le b a.
Proof.
  unfold top_le. intros _ _ H.
  destruct (float_lt (y0 a) (y0 b)) eqn:E; [|reflexivity].
  rewrite (top_lt_key_lt a b E) in H. discriminate.
Qed.

(** C4 as the specification words it fails once a top coordinate is NaN:
    of the blocks with tops 2, NaN, 1, in that order, the sort moves none
    (the list passes for one ascending run), so the block with top 1 stays
    behind the block with top 2. *)
Lemma nan_defeats_top_order :
  In (at_top 1 1) drifting /\ In (at_top 2 0) drifting
  /\ float_lt (y0 (at_top 1 1)) (y0 (at_top 2 0)) = true
  /\ sort_blocks drifting = drifting
  /\ ~ Before (at_top 1 1) (at_top 2 0) (sort_blocks drifting).
Proof.
  assert (Hs : sort_blocks drifting = drifting) by reflexivity.
  repeat split; try exact Hs; try (simpl; now auto).
  rewrite Hs. unfold drifting. intros H.
  repeat (apply Before_cons in H as [[Heq Hin] | H];
          [try discriminate Heq; simpl in Hin; intuition discriminate|]).
  now apply Before_nil in H.
Qed.

(** C4, amended. Ordering correctness: when no block of the input has a NaN
    top, two blocks [a] and [b] of the input with [a.y0 < b.y0] come out with
    [a] before [b], and nowhere [b] before [a], whatever the input order and
    whatever the left coordinates are. *)
Theorem sequencer_orders_by_top (blocks : list TextBlock) (a b : TextBlock) :
  Forall (fun blk => is_nan (y0 blk) = false) blocks ->
  In a blocks -> In b blocks -> float_lt (y0 a) (y0 b) = true ->
  Before a b (sort_blocks blocks) /\ ~ Before b a (sort_blocks blocks).
Proof.
  intros Hok Ha Hb Hlt.
  assert (Hs : StronglySorted top_le (sort_blocks blocks)).
  { apply (list_sort_coarse sort_key tuple_lt
             (fun blk => is_nan (y0 blk) = false) top_le);
      [apply top_le_trans | apply key_lt_top_le | apply key_nlt_top_le
      | exact Hok]. }
  assert (Hno : ~ Before b a (sort_blocks blocks)).
  { intros (l1 & l2 & l3 & Heq). rewrite Heq in Hs.
    apply StronglySorted_app_inv in Hs as (_ & Hs & _).
    apply StronglySorted_inv in Hs as [_ Hs].
    rewrite Forall_forall in Hs.
    assert (Hin : In a (l2 ++ a :: l3)) by (apply in_or_app; right; now left).
    specialize (Hs a Hin). unfold top_le in Hs. congruence. }
  split; [|exact Hno].
  apply before_or_behind; [| | |exact Hno].
  - eapply Permutation_in; [symmetry; apply sort_blocks_perm | exact Ha].
  - eapply Permutation_in; [symmetry; apply sort_blocks_perm | exact Hb].
  - intros ->. apply float_lt_iff in Hlt.
    destruct (y0 b); simpl in Hlt; [lra | contradiction].
Qed.



(** C6. Pure reordering: the sorted list is a permutation of the input,
    NaN or not; it has the same length and holds every block value, all six
    fields alike, exactly as often as the input does. *)
Theorem sequencer_is_permutation (blocks : list TextBlock) :
  Permutation (sort_blocks blocks) blocks
  /\ List.length (sort_blocks blocks) = List.length blocks
  /\ forall blk, count_occ TextBlock_eq_dec (sort_blocks blocks) blk
                 = count_occ TextBlock_eq_dec blocks blk.
Proof.
  pose proof (sort_blocks_perm blocks) as Hp.
  split; [exact Hp|]. split.
  - now apply Permutation_length.
  - intros blk. revert blk. now apply Permutation_count_occ.
Qed.

(** ** [step] against the rules *)

Lemma state_eta (s : state) :
  s = mkState (group1 s) (group2 s) (group3 s) (group4 s)
              (in_group2 s) (in_group3 s) (in_group4 s).
Proof. now destruct s. Qed.

Lemma step_apply_rule (s : state) (blk : TextBlock) :
  step s blk = apply_rule (classify blk) blk s.
Proof.
  unfold step, classify, keyword_table, first_match.
  destruct (PyStr.contains "restricted" (txt_clean blk)); [reflexivity|].
  destruct (PyStr.contains "programme/project status report" (txt_clean blk));
    [reflexivity|].
  destruct (PyStr.contains "description" (txt_clean blk)); [reflexivity|].
  destruct (PyStr.contains "report parameters" (txt_clean blk)); [reflexivity|].
  unfold apply_rule, follow, active_group.
  destruct s as [g1 g2 g3 g4 [|] [|] [|]]; reflexivity.
Qed.

Lemma run_app (s : state) (l1 l2 : list TextBlock) :
  run s (l1 ++ l2) = run (run s l1) l2.
Proof. apply fold_left_app. Qed.

Lemma run_cons (s : state) (blk : TextBlock) (l : list TextBlock) :
  run s (blk :: l) = run (step s blk) l.
Proof. reflexivity. Qed.

(** A run of followers under an active section all join that section. *)
Lemma run_followers (sec : section) (fs : list TextBlock) (s : state) :
  flags s = flags_for sec ->
  Forall (fun f => classify f = None) fs ->
  run s fs = add_section sec fs s.
Proof.
  intros Hf Hfs. revert s Hf.
  induction Hfs as [|f fs Hcf _ IH]; intros s Hf.
  - destruct s, sec; unfold run; simpl; rewrite app_nil_r; reflexivity.
  - rewrite run_cons, step_apply_rule, Hcf.
    destruct s as [g1 g2 g3 g4 b2 b3 b4]. unfold flags in Hf. simpl in Hf.
    destruct sec; simpl in Hf; injection Hf as -> -> ->;
      unfold apply_rule, follow; simpl;
      rewrite IH by reflexivity; simpl; rewrite <- app_assoc; reflexivity.
Qed.

Lemma classify_text (blk : TextBlock) (t : string) :
  text blk = t ->
  classify blk = first_match keyword_table (PyStr.lower (PyStr.strip t)).
Proof. intros <-. reflexivity. Qed.

(** ** Claims on the Segmenter *)

Lemma fragment_top_finite (blk : TextBlock) (txt : string) (top : Q) :
  is_fragment blk txt top -> is_nan (y0 blk) = false.
Proof. intros [_ Hy]. destruct (y0 blk); [reflexivity | discriminate]. Qed.

Lemma fragment_top_lt (a b : TextBlock) (ta tb : string) (p q : Q) :
  is_fragment a ta p -> is_fragment b tb q -> (p < q)%Q ->
  lt_key sort_key tuple_lt a b.
Proof.
  intros [_ Ha] [_ Hb] Hpq. apply top_lt_key_lt.
  apply float_eq_iff in Ha, Hb. apply float_lt_iff.
  destruct (y0 a), (y0 b); simpl in *; try contradiction. lra.
Qed.

Lemma fragment_top_eq (a b : TextBlock) (ta tb : string) (p q : Q) :
  is_fragment a ta p -> is_fragment b tb q ->
  float_eq (y0 a) (y0 b) = true -> (p == q)%Q.
Proof.
  intros [_ Ha] [_ Hb] Hab. apply float_eq_iff in Ha, Hb, Hab.
  destruct (y0 a), (y0 b); simpl in *; try contradiction. lra.
Qed.

(** C1. The concrete scenario: the seven fragments, presented in any order,
    are sorted and grouped into Marker = [RESTRICTED], Section-A = [status
    heading, line A], Section-B = [Description, line B] and Section-C =
    [Report Parameters, line C], groups and members in that order. *)
Theorem concrete_scenario (f1 f2 f3 f4 f5 f6 f7 : TextBlock)
    (input : list TextBlock) :
  is_fragment f1 "RESTRICTED" 0 ->
  is_fragment f2 "Programme/Project Status Report" 10 ->
  is_fragment f3 "line A" 20 ->
  is_fragment f4 "Description" 30 ->
  is_fragment f5 "line B" 40 ->
  is_fragment f6 "Report Parameters" 50 ->
  is_fragment f7 "line C" 60 ->
  Permutation input [f1; f2; f3; f4; f5; f6; f7] ->
  group_blocks (sort_blocks input) = [[f1]; [f2; f3]; [f4; f5]; [f6; f7]].
Proof.
  intros F1 F2 F3 F4 F5 F6 F7 Hperm.
  set (scenario := [f1; f2; f3; f4; f5; f6; f7]) in *.
  assert (Hnum : forall a, In a scenario -> is_nan (y0 a) = false).
  { intros a Ha. simpl in Ha.
    repeat (destruct Ha as [<- | Ha];
            [eapply fragment_top_finite; eassumption|]).
    contradiction. }
  assert (Hinj : forall a c, In a scenario -> In c scenario ->
                   float_eq (y0 a) (y0 c) = true -> a = c).
  { intros a c Ha Hc Hac. simpl in Ha, Hc.
    repeat (destruct Ha as [<- | Ha]; [|try contradiction]);
    repeat (destruct Hc as [<- | Hc]; [|try contradiction]);
      try reflexivity;
      (exfalso;
       match goal with
       | Fa : is_fragment ?a _ _, Fc : is_fragment ?c _ _,
         H : float_eq (y0 ?a) (y0 ?c) = true |- _ =>
           pose proof (fragment_top_eq _ _ _ _ _ _ Fa Fc H) as Hq;
           revert Hq; clear; unfold Qeq; simpl; lia
       end). }
  assert (Hsort : sort_blocks input = scenario).
  { apply (list_sort_unique sort_key tuple_lt (fun blk => In blk scenario)
             tuple_lt_irrefl tuple_lt_trans
             (distinct_tops_negtrans scenario Hnum Hinj)).
    - apply Forall_forall. intros blk Hblk.
      eapply Permutation_in; eassumption.
    - unfold scenario.
      repeat (constructor;
              [|repeat constructor;
                (eapply fragment_top_lt; [eassumption | eassumption | reflexivity])]).
      constructor.
    - exact Hperm. }
  unfold scenario in *. clear Hnum Hinj.
  destruct F1 as [T1 _], F2 as [T2 _], F3 as [T3 _], F4 as [T4 _],
           F5 as [T5 _], F6 as [T6 _], F7 as [T7 _].
  rewrite Hsort. unfold group_blocks.
  rewrite !run_cons, !step_apply_rule.
  rewrite (classify_text f1 _ T1), (classify_text f2 _ T2),
    (classify_text f3 _ T3), (classify_text f4 _ T4),
    (classify_text f5 _ T5), (classify_text f6 _ T6),
    (classify_text f7 _ T7).
  reflexivity.
Qed.

(** C3. Marker independence: a block whose cleaned text contains
    "restricted" is appended to group 1 and changes nothing else, neither
    another group nor a flag; so in [Section-A heading, marker, follower]
    the follower joins the heading in group 2 and the marker stands alone in
    group 1. *)
Theorem marker_independence (s : state) (m : TextBlock) :
  PyStr.contains "restricted" (txt_clean m) = true ->
  step s m = add_marker [m] s
  /\ flags (step s m) = flags s
  /\ active_group (step s m) = active_group s
  /\ (forall h f : TextBlock,
        classify h = Some (RHeading SecA) -> classify f = None ->
        group_blocks [h; m; f] = [[m]; [h; f]; []; []]).
Proof.
  intros Hm.
  assert (Hcm : classify m = Some RMarker).
  { unfold classify. simpl. now rewrite Hm. }
  assert (Hstep : step s m = add_marker [m] s)
    by now rewrite step_apply_rule, Hcm.
  rewrite Hstep. repeat split.
  intros h f Hh Hf. unfold group_blocks.
  rewrite !run_cons, !step_apply_rule, Hh, Hcm, Hf. reflexivity.
Qed.

(** C7. First match wins: [step] applies the rule of the first keyword of
    the table that occurs in the cleaned text.  A block containing
    "description" and "report parameters" is not appended to group 4; when it
    contains neither of the two earlier keywords, it is appended to group 3
    and makes Section-B the active group. *)
Theorem first_match_wins (s : state) (blk : TextBlock) :
  step s blk = apply_rule (first_match keyword_table (txt_clean blk)) blk s
  /\ (PyStr.contains "description" (txt_clean blk) = true ->
      PyStr.contains "report parameters" (txt_clean blk) = true ->
      group4 (step s blk) = group4 s
      /\ (PyStr.contains "restricted" (txt_clean blk) = false ->
          PyStr.contains "programme/project status report" (txt_clean blk)
          = false ->
          step s blk = set_flags (flags_for SecB) (add_section SecB [blk] s)
          /\ group3 (step s blk) = group3 s ++ [blk]
          /\ active_group (step s blk) = Some SecB)).
Proof.
  split; [apply step_apply_rule|]. intros Hd Hp.
  rewrite step_apply_rule. unfold classify. simpl. rewrite Hd.
  split.
  - destruct (PyStr.contains "restricted" (txt_clean blk)); [reflexivity|].
    destruct (PyStr.contains "programme/project status report" (txt_clean blk));
      reflexivity.
  - intros -> ->. repeat split.
Qed.


Lemma step_flags (s : state) (blk : TextBlock) :
  flags (step s blk)
  = match classify blk with
    | Some (RHeading sec) => flags_for sec
    | _ => flags s
    end.
Proof.
  rewrite step_apply_rule.
  destruct (classify blk) as [[|sec]|]; simpl.
  - reflexivity.
  - destruct sec; reflexivity.
  - unfold follow. destruct (active_group s) as [[| |]|]; reflexivity.
Qed.

Lemma run_active_count (blocks : list TextBlock) (s : state) :
  (active_count s <= 1)%nat -> (active_count (run s blocks) <= 1)%nat.
Proof.
  revert s. induction blocks as [|blk blocks IH]; intros s Hs; [exact Hs|].
  rewrite run_cons. apply IH.
  pose proof (step_flags s blk) as Hf. unfold flags in Hf.
  unfold active_count in *.
  destruct (classify blk) as [[|[| |]]|]; simpl in Hf;
    injection Hf as -> -> ->; simpl; auto.
Qed.

(** C10. Exclusive flags: after any number of iterations of the loop at
    most one of the three flags is set; a heading rule leaves exactly its own
    flag set, and the marker and follower rules change no flag. *)
Theorem flags_mutually_exclusive (blocks : list TextBlock) :
  (forall k, (active_count (run init (firstn k blocks)) <= 1)%nat)
  /\ (forall s blk,
        flags (step s blk)
        = match classify blk with
          | Some (RHeading sec) => flags_for sec
          | _ => flags s
          end)
  /\ (forall sec, active_count (set_flags (flags_for sec) init) = 1%nat).
Proof.
  split; [|split].
  - intros k. apply run_active_count. unfold active_count, init. simpl. lia.
  - apply step_flags.
  - now intros [| |].
Qed.

Lemma select_cons (o ow : owner) ows b bs :
  select o (ow :: ows) (b :: bs) = pick o ow b ++ select o ows bs.
Proof. unfold pick. simpl. now destruct (owner_eqb o ow). Qed.

Lemma step_groups (s : state) (blk : TextBlock) :
  group1 (step s blk) = group1 s ++ pick OMarker (owner_of s blk) blk
  /\ group2 (step s blk) = group2 s ++ pick (OSection SecA) (owner_of s blk) blk
  /\ group3 (step s blk) = group3 s ++ pick (OSection SecB) (owner_of s blk) blk
  /\ group4 (step s blk) = group4 s ++ pick (OSection SecC) (owner_of s blk) blk.
Proof.
  rewrite step_apply_rule. unfold owner_of, apply_rule, follow.
  destruct (classify blk) as [[|[| |]]|]; simpl; rewrite ?app_nil_r; auto.
  destruct (active_group s) as [[| |]|]; simpl; rewrite ?app_nil_r; auto.
Qed.

Lemma dropped_iff_owner (s : state) (blk : TextBlock) :
  no_keyword blk && no_section_active s = owner_eqb ODropped (owner_of s blk).
Proof.
  unfold no_keyword, no_section_active, owner_of, classify, active_group.
  simpl.
  destruct (PyStr.contains "restricted" (txt_clean blk)); [reflexivity|].
  destruct (PyStr.contains "programme/project status report" (txt_clean blk));
    [reflexivity|].
  destruct (PyStr.contains "description" (txt_clean blk)); [reflexivity|].
  destruct (PyStr.contains "report parameters" (txt_clean blk)); [reflexivity|].
  destruct (in_group2 s), (in_group3 s), (in_group4 s); reflexivity.
Qed.

Lemma run_groups (blocks : list TextBlock) (s : state) :
  let ows := owners_from s blocks in
  group1 (run s blocks) = group1 s ++ select OMarker ows blocks
  /\ group2 (run s blocks) = group2 s ++ select (OSection SecA) ows blocks
  /\ group3 (run s blocks) = group3 s ++ select (OSection SecB) ows blocks
  /\ group4 (run s blocks) = group4 s ++ select (OSection SecC) ows blocks.
Proof.
  revert s. induction blocks as [|b r IH]; intros s; cbn zeta.
  - unfold run. simpl. now rewrite !app_nil_r.
  - rewrite run_cons. cbn [owners_from]. rewrite !select_cons.
    destruct (IH (step s b)) as (H1 & H2 & H3 & H4).
    destruct (step_groups s b) as (S1 & S2 & S3 & S4).
    rewrite H1, H2, H3, H4, S1, S2, S3, S4, <- !app_assoc. auto.
Qed.

Lemma dropped_select (blocks : list TextBlock) (s : state) :
  dropped_from s blocks = select ODropped (owners_from s blocks) blocks.
Proof.
  revert s. induction blocks as [|b r IH]; intros s; [reflexivity|].
  cbn [dropped_from owners_from select].
  now rewrite dropped_iff_owner, IH.
Qed.

Lemma owners_from_length (blocks : list TextBlock) (s : state) :
  List.length (owners_from s blocks) = List.length blocks.
Proof.
  revert s. induction blocks as [|b r IH]; intros s; simpl; [|rewrite IH]; reflexivity.
Qed.

Lemma select_lengths (ows : list owner) (blocks : list TextBlock) :
  List.length ows = List.length blocks ->
  (List.length (select OMarker ows blocks)
   + List.length (select (OSection SecA) ows blocks)
   + List.length (select (OSection SecB) ows blocks)
   + List.length (select (OSection SecC) ows blocks)
   + List.length (select ODropped ows blocks))%nat
  = List.length blocks.
Proof.
  revert blocks. induction ows as [|ow ows IH]; intros [|b bs] Hlen;
    try discriminate; [reflexivity|].
  injection Hlen as Hlen. specialize (IH bs Hlen).
  destruct ow as [|[| |]|]; simpl; lia.
Qed.

Lemma select_perm (ows : list owner) (blocks : list TextBlock) :
  List.length ows = List.length blocks ->
  Permutation blocks
    (select OMarker ows blocks ++ select (OSection SecA) ows blocks
     ++ select (OSection SecB) ows blocks ++ select (OSection SecC) ows blocks
     ++ select ODropped ows blocks).
Proof.
  revert blocks. induction ows as [|ow ows IH]; intros [|b bs] Hlen;
    try discriminate; [constructor|].
  injection Hlen as Hlen. specialize (IH bs Hlen).
  destruct ow as [|[| |]|]; simpl.
  - now constructor.
  - now apply Permutation_cons_app.
  - rewrite app_assoc. apply Permutation_cons_app. now rewrite <- app_assoc.
  - rewrite 2!app_assoc. apply Permutation_cons_app. now rewrite <- 2!app_assoc.
  - rewrite 3!app_assoc. apply Permutation_cons_app. now rewrite <- 3!app_assoc.
Qed.

(** C2. Partition invariant: every input position has one owner, the
    marker group, one of the three sections or none (dropped); each group is
    the input restricted to the positions it owns, in input order, and the
    dropped blocks are those reaching the final [else] (no keyword, no flag
    set).  Hence the four group sizes and the number of dropped blocks add up
    to the input size, and the input is a rearrangement of the four groups
    and the dropped blocks put end to end. *)
Theorem partition_invariant (blocks : list TextBlock) :
  exists owners : list owner,
    List.length owners = List.length blocks
    /\ group_blocks blocks
       = [ select OMarker owners blocks;
           select (OSection SecA) owners blocks;
           select (OSection SecB) owners blocks;
           select (OSection SecC) owners blocks ]
    /\ dropped_blocks blocks = select ODropped owners blocks
    /\ (list_sum (map (@List.length TextBlock) (group_blocks blocks))
        + List.length (dropped_blocks blocks))%nat = List.length blocks
    /\ Permutation blocks (List.concat (group_blocks blocks) ++ dropped_blocks blocks).
Proof.
  exists (owners_from init blocks).
  pose proof (owners_from_length blocks init) as Hlen.
  destruct (run_groups blocks init) as (H1 & H2 & H3 & H4). simpl in H1, H2, H3, H4.
  assert (Hg : group_blocks blocks
       = [ select OMarker (owners_from init blocks) blocks;
           select (OSection SecA) (owners_from init blocks) blocks;
           select (OSection SecB) (owners_from init blocks) blocks;
           select (OSection SecC) (owners_from init blocks) blocks ]).
  { unfold group_blocks, groups_of. now rewrite H1, H2, H3, H4. }
  assert (Hd : dropped_blocks blocks
               = select ODropped (owners_from init blocks) blocks)
    by apply dropped_select.
  repeat split; try assumption.
  - rewrite Hg, Hd. pose proof (select_lengths _ _ Hlen) as Hsum.
    simpl. lia.
  - rewrite Hg, Hd. simpl. rewrite app_nil_r, <- !app_assoc.
    now apply select_perm.
Qed.

(** ** The supplier *)

Lemma load_page_in_range (doc : Document) (page_id : Z) :
  (0 <= page_id < page_count doc)%Z ->
  load_page doc page_id = Returns (nth (Z.to_nat page_id) doc []).
Proof.
  intros H. unfold load_page.
  destruct (page_id >=? page_count doc)%Z eqn:G;
    [rewrite Z.geb_leb in G; apply Z.leb_le in G; lia|].
  destruct (page_count doc =? 0)%Z eqn:E; [apply Z.eqb_eq in E; lia|].
  now rewrite Z.mod_small by exact H.
Qed.

Lemma make_blocks_nonempty (b : RawBlock) (rest : list RawBlock) :
  make_blocks (b :: rest) = inl (TooManyValues 6).
Proof. reflexivity. Qed.



(** ** The claims on sample blocks *)

Example empty_input : group_blocks [] = [[]; []; []; []].
Proof. reflexivity. Qed.

Example orphan_is_dropped :
  group_blocks (sort_blocks [status; orphan; lineA]) = [[]; [status; lineA]; []; []]
  /\ dropped_blocks (sort_blocks [status; orphan; lineA]) = [orphan].
Proof. split; vm_compute; reflexivity. Qed.

Example repeated_heading :
  group_blocks [status; lineA; description; lineB; status_again; lineC]
  = [[]; [status; lineA; status_again; lineC]; [description; lineB]; []].
Proof. vm_compute. reflexivity. Qed.

Lemma concrete_scenario_witness :
  group_blocks
    (sort_blocks
       [lineC; parameters; lineB; description; lineA; status; restricted])
  = [[restricted]; [status; lineA]; [description; lineB]; [parameters; lineC]].
Proof.
  apply (concrete_scenario restricted status lineA description lineB
           parameters lineC);
    try (repeat split; reflexivity).
  exact (Permutation_sym
           (Permutation_rev
              [restricted; status; lineA; description; lineB; parameters; lineC])).
Defined.

Lemma marker_independence_witness :
  step init restricted = add_marker [restricted] init
  /\ group_blocks [status; restricted; lineA]
     = [[restricted]; [status; lineA]; []; []].
Proof.
  destruct (marker_independence init restricted eq_refl) as (Hs & _ & _ & Hg).
  split; [exact Hs | apply Hg; reflexivity].
Defined.

Lemma sequencer_orders_by_top_witness :
  Before status lineA (sort_blocks [lineA; leftless; status])
  /\ ~ Before lineA status (sort_blocks [lineA; leftless; status]).
Proof.
  apply (sequencer_orders_by_top [lineA; leftless; status] status lineA).
  - repeat constructor.
  - simpl. auto.
  - simpl. auto.
  - reflexivity.
Defined.


Lemma first_match_wins_witness :
  step init both = set_flags (flags_for SecB) (add_section SecB [both] init)
  /\ group3 (step init both) = group3 init ++ [both]
  /\ active_group (step init both) = Some SecB.
Proof.
  destruct (first_match_wins init both) as [_ H].
  destruct (H eq_refl eq_refl) as [_ H'].
  exact (H' eq_refl eq_refl).
Defined.



(** * Further properties *)

(** ** More on the sort *)

Lemma ascending_run_all {A K : Type} (key : A -> K) (lt : K -> K -> bool)
    (x : A) (t : list A) :
  Sorted (le_key key lt) (x :: t) -> ascending_run key lt x t = List.length t.
Proof.
  revert x. induction t as [|y r IH]; intros x H; [reflexivity|].
  apply Sorted_inv in H as [Hs Hh]. apply HdRel_inv in Hh.
  unfold le_key in Hh. simpl. rewrite Hh. f_equal. now apply IH.
Qed.

(** A list without a drop between neighbours is one ascending run, and
    nothing is left to insert. *)
Lemma list_sort_fixed {A K : Type} (key : A -> K) (lt : K -> K -> bool)
    (l : list A) :
  Sorted (le_key key lt) l -> list_sort key lt l = l.
Proof.
  intros H. destruct l as [|x [|y r]]; [reflexivity | reflexivity|].
  pose proof (ascending_run_all key lt y r) as Hrun.
  apply Sorted_inv in H as [Hs Hh]. apply HdRel_inv in Hh.
  specialize (Hrun Hs). unfold le_key in Hh.
  unfold list_sort, initial_run, count_run. rewrite Hh, Hrun.
  change (2 + List.length r) with (List.length (x :: y :: r)).
  cbn [fst]. now rewrite skipn_all, firstn_all.
Qed.

Lemma left_lt_key_lt (a b : TextBlock) :
  float_eq (y0 a) (y0 b) = true -> float_lt (x0 a) (x0 b) = true ->
  tuple_lt (sort_key a) (sort_key b) = true.
Proof.
  intros Hy Hx. apply tuple_lt_iff. right.
  split; [now apply float_eq_iff | now apply float_lt_iff].
Qed.

(** X1. Left-to-right within a line: when no block of the input has a NaN
    top or left, two blocks of the input with equal tops come out with the
    one further left first, and nowhere the other way round. *)
Theorem sequencer_orders_by_left (blocks : list TextBlock) (a b : TextBlock) :
  Forall (fun blk => no_nan blk = true) blocks ->
  In a blocks -> In b blocks ->
  float_eq (y0 a) (y0 b) = true -> float_lt (x0 a) (x0 b) = true ->
  Before a b (sort_blocks blocks) /\ ~ Before b a (sort_blocks blocks).
Proof.
  intros Hok Ha Hb Hy Hx.
  apply (list_sort_before sort_key tuple_lt (fun blk => no_nan blk = true)
           tuple_lt_irrefl tuple_lt_trans tuple_lt_negtrans);
    auto using left_lt_key_lt.
Qed.

Lemma sequencer_orders_by_left_witness :
  Before status status_right (sort_blocks [lineA; status_right; status])
  /\ ~ Before status_right status (sort_blocks [lineA; status_right; status]).
Proof.
  apply (sequencer_orders_by_left [lineA; status_right; status]
           status status_right).
  - repeat constructor.
  - simpl. auto.
  - simpl. auto.
  - reflexivity.
  - reflexivity.
Defined.

(** X2. Input in order is left alone: a list in which no block has a
    smaller key than the block just before it comes back unchanged, NaN
    coordinates or not. *)
Theorem sequencer_keeps_ordered_input (blocks : list TextBlock) :
  Sorted (le_key sort_key tuple_lt) blocks -> sort_blocks blocks = blocks.
Proof. apply list_sort_fixed. Qed.

Lemma sequencer_keeps_ordered_input_witness :
  sort_blocks [restricted; adrift; status] = [restricted; adrift; status].
Proof.
  apply (sequencer_keeps_ordered_input [restricted; adrift; status]).
  repeat constructor.
Defined.

(** X3. Sorting twice is sorting once, when no block of the input has a NaN
    top or left. *)
Theorem sequencer_idempotent (blocks : list TextBlock) :
  Forall (fun blk => no_nan blk = true) blocks ->
  sort_blocks (sort_blocks blocks) = sort_blocks blocks.
Proof.
  intros Hok. apply list_sort_fixed, StronglySorted_Sorted.
  now apply sort_blocks_sorted.
Qed.

Lemma sequencer_idempotent_witness :
  sort_blocks (sort_blocks [lineC; tie1; status; tie2; restricted])
  = sort_blocks [lineC; tie1; status; tie2; restricted].
Proof.
  apply (sequencer_idempotent [lineC; tie1; status; tie2; restricted]).
  repeat constructor.
Defined.

(** Sorted blocks with keys all different are strictly sorted. *)
Lemma sorted_distinct_strict (m : list TextBlock) :
  Forall (fun blk => no_nan blk = true) m -> NoDup m ->
  (forall a b, In a m -> In b m -> same_key a b = true -> a = b) ->
  StronglySorted (le_key sort_key tuple_lt) m ->
  StronglySorted (lt_key sort_key tuple_lt) m.
Proof.
  intros Hok Hnd Hinj Hs.
  induction Hs as [|a m Hs IH Ha]; [constructor|].
  apply Forall_cons_iff in Hok as [Hoka Hokm].
  apply NoDup_cons_iff in Hnd as [Hnin Hnd].
  constructor.
  - apply IH; auto. intros x y Hx Hy. apply Hinj; now right.
  - rewrite Forall_forall in Ha, Hokm |- *. intros z Hz.
    specialize (Ha z Hz). unfold le_key in Ha. unfold lt_key.
    destruct (tuple_lt (sort_key a) (sort_key z)) eqn:E; [reflexivity|].
    exfalso. apply Hnin.
    rewrite (Hinj a z) at 1; [exact Hz | now left | now right|].
    rewrite same_key_incomparable by auto. now rewrite E, Ha.
Qed.

(** X4. The order in which the page hands over its blocks does not matter
    when no two of them share a place: for blocks without NaN top or left,
    all different, no two with equal top and equal left, every rearrangement
    of the input sorts to the same list. *)
Theorem sequencer_order_independent (blocks blocks' : list TextBlock) :
  Forall (fun blk => no_nan blk = true) blocks ->
  NoDup blocks ->
  (forall a b, In a blocks -> In b blocks -> same_key a b = true -> a = b) ->
  Permutation blocks blocks' ->
  sort_blocks blocks' = sort_blocks blocks.
Proof.
  intros Hok Hnd Hinj Hp.
  assert (Hps : Permutation (sort_blocks blocks) blocks)
    by apply sort_blocks_perm.
  apply (list_sort_unique sort_key tuple_lt (fun blk => no_nan blk = true)
           tuple_lt_irrefl tuple_lt_trans tuple_lt_negtrans).
  - eapply Permutation_Forall; eassumption.
  - apply sorted_distinct_strict.
    + eapply Permutation_Forall; [symmetry; exact Hps | exact Hok].
    + eapply Permutation_NoDup; [symmetry; exact Hps | exact Hnd].
    + intros a b Ha Hb. apply Hinj; eapply Permutation_in; eassumption.
    + now apply sort_blocks_sorted.
  - rewrite Hps. now symmetry.
Qed.

Lemma sequencer_order_independent_witness :
  sort_blocks [status; lineA; restricted]
  = sort_blocks [restricted; status; lineA].
Proof.
  apply (sequencer_order_independent [restricted; status; lineA]
           [status; lineA; restricted]).
  - repeat constructor.
  - repeat constructor; simpl; intuition discriminate.
  - intros a b Ha Hb. simpl in Ha, Hb.
    repeat (destruct Ha as [<- | Ha]; [|try contradiction]);
    repeat (destruct Hb as [<- | Hb]; [|try contradiction]);
      (reflexivity || (intros H; discriminate H)).
  - apply Permutation_sym, perm_trans with (l' := [status; restricted; lineA]);
      [apply perm_skip, perm_swap | apply perm_swap].
Defined.

(** ** More on the supplier *)



(** ** More on the Segmenter *)

Lemma classify_marker (blk : TextBlock) :
  classify blk = Some RMarker <-> is_marker blk = true.
Proof.
  unfold classify, is_marker. simpl.
  destruct (PyStr.contains "restricted" (txt_clean blk)); [tauto|].
  split; [|discriminate].
  destruct (PyStr.contains "programme/project status report" (txt_clean blk));
    [discriminate|].
  destruct (PyStr.contains "description" (txt_clean blk)); [discriminate|].
  destruct (PyStr.contains "report parameters" (txt_clean blk)); discriminate.
Qed.

Lemma owner_marker (s : state) (blk : TextBlock) :
  owner_eqb OMarker (owner_of s blk) = is_marker blk.
Proof.
  unfold owner_of. destruct (classify blk) as [[|sec]|] eqn:E.
  - symmetry. now apply classify_marker.
  - destruct (is_marker blk) eqn:Em; [|now destruct sec].
    apply classify_marker in Em. congruence.
  - destruct (is_marker blk) eqn:Em.
    + apply classify_marker in Em. congruence.
    + now destruct (active_group s) as [[| |]|].
Qed.

Lemma select_marker (blocks : list TextBlock) (s : state) :
  select OMarker (owners_from s blocks) blocks = filter is_marker blocks.
Proof.
  revert s. induction blocks as [|b r IH]; intros s; [reflexivity|].
  cbn [owners_from select filter]. now rewrite owner_marker, IH.
Qed.

(** X6. Group 1 is the marker blocks and nothing else: it holds exactly the
    blocks of the input whose cleaned text contains "restricted", in input
    order, wherever they stand and whatever section is active. *)
Theorem marker_group_is_filter (blocks : list TextBlock) :
  marker_group (group_blocks blocks) = filter is_marker blocks.
Proof.
  unfold marker_group, group_blocks, groups_of. cbn [nth].
  destruct (run_groups blocks init) as (H1 & _). simpl in H1.
  now rewrite H1, select_marker.
Qed.

Lemma step_same_sections (s s' : state) (blk : TextBlock) :
  same_sections s s' -> same_sections (step s blk) (step s' blk).
Proof.
  intros (H2 & H3 & H4 & Hf). rewrite !step_apply_rule.
  destruct s as [g1 g2 g3 g4 b2 b3 b4], s' as [g1' g2' g3' g4' b2' b3' b4'].
  unfold flags in Hf. simpl in *. injection Hf as -> -> ->. subst.
  unfold same_sections.
  destruct (classify blk) as [[|[| |]]|]; simpl; auto.
  unfold follow, active_group. simpl.
  destruct b2'; [simpl; auto|]. destruct b3'; [simpl; auto|].
  destruct b4'; simpl; auto.
Qed.

Lemma step_marker_same_sections (s : state) (blk : TextBlock) :
  is_marker blk = true -> same_sections (step s blk) s.
Proof.
  intros Hm. apply classify_marker in Hm.
  rewrite step_apply_rule, Hm. destruct s. repeat split.
Qed.

Lemma same_sections_trans (s s' s'' : state) :
  same_sections s s' -> same_sections s' s'' -> same_sections s s''.
Proof.
  intros (A2 & A3 & A4 & Af) (B2 & B3 & B4 & Bf).
  repeat split; congruence.
Qed.

Lemma run_same_sections (blocks : list TextBlock) (s s' : state) :
  same_sections s s' -> same_sections (run s blocks) (run s' blocks).
Proof.
  revert s s'. induction blocks as [|b r IH]; intros s s' H; [exact H|].
  rewrite !run_cons. now apply IH, step_same_sections.
Qed.

Lemma run_without_markers (blocks : list TextBlock) (s : state) :
  same_sections
    (run s (filter (fun blk => negb (is_marker blk)) blocks)) (run s blocks).
Proof.
  revert s. induction blocks as [|b r IH]; intros s.
  - repeat split.
  - cbn [filter]. destruct (is_marker b) eqn:Em; simpl negb; cbv iota.
    + rewrite run_cons.
      eapply same_sections_trans; [apply IH|].
      apply run_same_sections.
      destruct (step_marker_same_sections s b Em) as (H2 & H3 & H4 & Hf).
      repeat split; congruence.
    + rewrite !run_cons. apply IH.
Qed.

(** X7. Marker blocks are invisible to the sections: taking every block
    that contains "restricted" out of the input leaves groups 2, 3 and 4 as
    they were. *)
Theorem markers_do_not_touch_sections (blocks : list TextBlock) :
  tl (group_blocks (filter (fun blk => negb (is_marker blk)) blocks))
  = tl (group_blocks blocks).
Proof.
  destruct (run_without_markers blocks init) as (H2 & H3 & H4 & _).
  unfold group_blocks, groups_of. simpl. now rewrite H2, H3, H4.
Qed.

Lemma headed_app (sec : section) (g : list TextBlock) (blk : TextBlock) :
  headed sec g -> (g = [] -> classify blk = Some (RHeading sec)) ->
  headed sec (g ++ [blk]).
Proof. destruct g; simpl; auto. Qed.

Lemma app_not_nil (g : list TextBlock) (blk : TextBlock) : g ++ [blk] <> [].
Proof. destruct g; discriminate. Qed.

Lemma step_heading_invariant (s : state) (blk : TextBlock) :
  heading_invariant s -> heading_invariant (step s blk).
Proof.
  intros (F2 & H2 & F3 & H3 & F4 & H4).
  rewrite step_apply_rule.
  destruct s as [g1 g2 g3 g4 b2 b3 b4]. simpl in *.
  unfold heading_invariant.
  destruct (classify blk) as [[|[| |]]|] eqn:E; simpl.
  - repeat split; assumption.
  - repeat split; try assumption; try discriminate.
    + intros _. apply app_not_nil.
    + apply headed_app; auto.
  - repeat split; try assumption; try discriminate.
    + intros _. apply app_not_nil.
    + apply headed_app; auto.
  - repeat split; try assumption; try discriminate.
    + intros _. apply app_not_nil.
    + apply headed_app; auto.
  - unfold follow, active_group. simpl.
    destruct b2; simpl.
    { repeat split; try assumption.
      - intros _. apply app_not_nil.
      - apply headed_app; [assumption|]. intros Hnil. now destruct F2. }
    destruct b3; simpl.
    { repeat split; try assumption.
      - intros _. apply app_not_nil.
      - apply headed_app; [assumption|]. intros Hnil. now destruct F3. }
    destruct b4; simpl.
    { repeat split; try assumption.
      - intros _. apply app_not_nil.
      - apply headed_app; [assumption|]. intros Hnil. now destruct F4. }
    repeat split; assumption.
Qed.

Lemma run_heading_invariant (blocks : list TextBlock) (s : state) :
  heading_invariant s -> heading_invariant (run s blocks).
Proof.
  revert s. induction blocks as [|b r IH]; intros s H; [exact H|].
  rewrite run_cons. now apply IH, step_heading_invariant.
Qed.

(** X8. Heading inclusion: the first block of group 2, 3 or 4, when the
    group is not empty, is a heading of that section: its cleaned text holds
    the section's keyword and no keyword of higher priority. *)
Theorem section_starts_with_heading (blocks : list TextBlock)
    (sec : section) (h : TextBlock) (members : list TextBlock) :
  section_group sec (group_blocks blocks) = h :: members ->
  classify h = Some (RHeading sec).
Proof.
  intros Hg.
  assert (Hinv : heading_invariant (run init blocks)).
  { apply run_heading_invariant. unfold heading_invariant, init. simpl.
    repeat split; discriminate. }
  destruct Hinv as (_ & H2 & _ & H3 & _ & H4).
  unfold section_group, group_blocks, groups_of in Hg.
  destruct sec; simpl in Hg.
  - rewrite Hg in H2. exact H2.
  - rewrite Hg in H3. exact H3.
  - rewrite Hg in H4. exact H4.
Qed.

Lemma section_starts_with_heading_witness :
  classify description = Some (RHeading SecB).
Proof.
  apply (section_starts_with_heading
           [lineA; restricted; description; lineB; status; lineC]
           SecB description [lineB]).
  reflexivity.
Defined.

(** Once a flag is set, some flag stays set. *)
Lemma step_keeps_active (s : state) (blk : TextBlock) :
  no_section_active s = false -> no_section_active (step s blk) = false.
Proof.
  intros H. pose proof (step_flags s blk) as Hf. unfold flags in Hf.
  unfold no_section_active in *.
  destruct (classify blk) as [[|[| |]]|]; simpl in Hf;
    injection Hf as -> -> ->; auto.
Qed.

Lemma dropped_from_active (blocks : list TextBlock) (s : state) :
  no_section_active s = false -> dropped_from s blocks = [].
Proof.
  revert s. induction blocks as [|b r IH]; intros s H; [reflexivity|].
  cbn [dropped_from]. rewrite H, andb_false_r.
  now apply IH, step_keeps_active.
Qed.

Lemma dropped_from_app (l1 l2 : list TextBlock) (s : state) :
  dropped_from s (l1 ++ l2) = dropped_from s l1 ++ dropped_from (run s l1) l2.
Proof.
  revert s. induction l1 as [|b r IH]; intros s; [reflexivity|].
  cbn [app dropped_from]. rewrite run_cons, IH.
  now destruct (no_keyword b && no_section_active s).
Qed.

Lemma heading_has_keyword (blk : TextBlock) (sec : section) :
  classify blk = Some (RHeading sec) -> no_keyword blk = false.
Proof.
  unfold classify, no_keyword. simpl.
  destruct (PyStr.contains "restricted" (txt_clean blk)); [reflexivity|].
  destruct (PyStr.contains "programme/project status report" (txt_clean blk));
    [reflexivity|].
  destruct (PyStr.contains "description" (txt_clean blk)); [reflexivity|].
  destruct (PyStr.contains "report parameters" (txt_clean blk));
    [reflexivity | discriminate].
Qed.

(** X9. Nothing is dropped after the first heading: from a heading on, some
    section is active for the rest of the pass, so the blocks that reach the
    final [else] all stand before it. *)
Theorem nothing_dropped_after_heading (pre post : list TextBlock)
    (sec : section) (h : TextBlock) :
  classify h = Some (RHeading sec) ->
  dropped_blocks (pre ++ h :: post) = dropped_blocks pre.
Proof.
  intros Hh. unfold dropped_blocks.
  rewrite dropped_from_app. cbn [dropped_from].
  rewrite (heading_has_keyword h sec Hh). cbn [andb].
  rewrite (dropped_from_active post (step (run init pre) h));
    [apply app_nil_r|].
  pose proof (step_flags (run init pre) h) as Hf. rewrite Hh in Hf.
  unfold flags in Hf. unfold no_section_active.
  destruct sec; simpl in Hf; injection Hf as -> -> ->; reflexivity.
Qed.

Lemma nothing_dropped_after_heading_witness :
  dropped_blocks ([orphan; restricted] ++ status :: [lineA; orphan])
  = dropped_blocks [orphan; restricted].
Proof.
  apply (nothing_dropped_after_heading
           [orphan; restricted] [lineA; orphan] SecA status).
  reflexivity.
Defined.

Lemma run_orphans (orphans : list TextBlock) :
  Forall (fun blk => classify blk = None) orphans -> run init orphans = init.
Proof.
  induction 1 as [|b r Hb _ IH]; [reflexivity|].
  rewrite run_cons, step_apply_rule, Hb. exact IH.
Qed.

Lemma classify_none_no_keyword (blk : TextBlock) :
  classify blk = None -> no_keyword blk = true.
Proof.
  unfold classify, no_keyword. simpl.
  destruct (PyStr.contains "restricted" (txt_clean blk)); [discriminate|].
  destruct (PyStr.contains "programme/project status report" (txt_clean blk));
    [discriminate|].
  destruct (PyStr.contains "description" (txt_clean blk)); [discriminate|].
  destruct (PyStr.contains "report parameters" (txt_clean blk));
    [discriminate | reflexivity].
Qed.

(** X10. Blocks before any keyword leave no trace: keyword-free blocks at
    the head of the input are all dropped, and the groups are those of the
    rest of the input alone. *)
Theorem leading_orphans_are_dropped (orphans rest : list TextBlock) :
  Forall (fun blk => classify blk = None) orphans ->
  group_blocks (orphans ++ rest) = group_blocks rest
  /\ dropped_blocks (orphans ++ rest) = orphans ++ dropped_blocks rest.
Proof.
  intros Ho. split.
  - unfold group_blocks. now rewrite run_app, run_orphans.
  - unfold dropped_blocks. rewrite dropped_from_app, run_orphans by exact Ho.
    f_equal. induction Ho as [|b r Hb _ IH]; [reflexivity|].
    cbn [dropped_from]. rewrite (classify_none_no_keyword b Hb).
    rewrite step_apply_rule, Hb.
    change (apply_rule None b init) with init.
    change (no_section_active init) with true. cbn [andb]. now rewrite IH.
Qed.

Lemma leading_orphans_are_dropped_witness :
  group_blocks ([orphan; lineB] ++ [status; lineA])
  = group_blocks [status; lineA]
  /\ dropped_blocks ([orphan; lineB] ++ [status; lineA])
     = [orphan; lineB] ++ dropped_blocks [status; lineA].
Proof.
  apply (leading_orphans_are_dropped [orphan; lineB] [status; lineA]).
  repeat constructor.
Defined.

Lemma classify_same_text (a b : TextBlock) :
  text a = text b -> classify a = classify b.
Proof. intros H. unfold classify, txt_clean. now rewrite H. Qed.

Lemma step_map_state (f : TextBlock -> TextBlock) (s : state) (blk : TextBlock) :
  (forall b, text (f b) = text b) ->
  step (map_state f s) (f blk) = map_state f (step s blk).
Proof.
  intros Hf. rewrite !step_apply_rule, (classify_same_text (f blk) blk (Hf blk)).
  destruct s as [g1 g2 g3 g4 b2 b3 b4]. unfold map_state. simpl.
  destruct (classify blk) as [[|[| |]]|]; simpl; rewrite ?map_app; try reflexivity.
  unfold follow, active_group. simpl.
  destruct b2; [simpl; now rewrite map_app|].
  destruct b3; [simpl; now rewrite map_app|].
  destruct b4; [simpl; now rewrite map_app | reflexivity].
Qed.

Lemma run_map_state (f : TextBlock -> TextBlock) (blocks : list TextBlock)
    (s : state) :
  (forall b, text (f b) = text b) ->
  run (map_state f s) (map f blocks) = map_state f (run s blocks).
Proof.
  intros Hf. revert s. induction blocks as [|b r IH]; intros s; [reflexivity|].
  cbn [map]. rewrite !run_cons, step_map_state by exact Hf. apply IH.
Qed.

(** X11. Only the text counts: the grouping never looks at coordinates or
    block numbers.  Changing the blocks by any function that keeps their
    text changes the groups by that function and nothing else. *)
Theorem grouping_reads_text_only (f : TextBlock -> TextBlock)
    (blocks : list TextBlock) :
  (forall b, text (f b) = text b) ->
  group_blocks (map f blocks) = map (map f) (group_blocks blocks).
Proof.
  intros Hf. unfold group_blocks.
  change init with (map_state f init) at 1.
  now rewrite run_map_state.
Qed.

Lemma grouping_reads_text_only_witness :
  group_blocks (map unplace [restricted; status; lineA])
  = map (map unplace) (group_blocks [restricted; status; lineA]).
Proof.
  apply (grouping_reads_text_only unplace [restricted; status; lineA]).
  reflexivity.
Defined.

(** X12. Groups only grow at their ends: the groups of a longer input are
    the groups of any of its prefixes, each with further blocks appended;
    no block already placed is moved or removed by what follows. *)
Theorem groups_grow_at_the_end (pre post : list TextBlock) :
  exists es : list (list TextBlock),
    List.length es = 4
    /\ group_blocks (pre ++ post) = extend_groups (group_blocks pre) es.
Proof.
  destruct (run_groups post (run init pre)) as (H1 & H2 & H3 & H4).
  cbv zeta in H1, H2, H3, H4.
  set (ows := owners_from (run init pre) post) in *.
  exists [ select OMarker ows post; select (OSection SecA) ows post;
           select (OSection SecB) ows post; select (OSection SecC) ows post ].
  split; [reflexivity|].
  unfold group_blocks, groups_of, extend_groups. rewrite run_app. simpl.
  now rewrite H1, H2, H3, H4.
Qed.

Lemma owner_eqb_eq (o o' : owner) : owner_eqb o o' = true -> o = o'.
Proof.
  destruct o as [|[| |]|], o' as [|[| |]|]; simpl;
    (reflexivity || discriminate).
Qed.

Lemma owner_eqb_refl (o : owner) : owner_eqb o o = true.
Proof. now destruct o as [|[| |]|]. Qed.

Lemma select_incl (o : owner) (ows : list owner) (blocks : list TextBlock)
    (b : TextBlock) :
  In b (select o ows blocks) -> In b blocks.
Proof.
  revert blocks. induction ows as [|ow ows IH]; intros [|a r]; simpl;
    try contradiction.
  destruct (owner_eqb o ow); simpl; intuition auto.
Qed.

Lemma select_owner (o : owner) (blocks : list TextBlock) (s : state)
    (b : TextBlock) :
  In b (select o (owners_from s blocks) blocks) ->
  exists s', owner_of s' b = o.
Proof.
  revert s. induction blocks as [|a r IH]; intros s; simpl; [contradiction|].
  destruct (owner_eqb o (owner_of s a)) eqn:E.
  - intros [<- | H]; [exists s; symmetry; now apply owner_eqb_eq | eauto].
  - eauto.
Qed.

Lemma select_complete (o : owner) (blocks : list TextBlock) (s : state)
    (b : TextBlock) :
  (forall s', owner_of s' b = o) -> In b blocks ->
  In b (select o (owners_from s blocks) blocks).
Proof.
  intros Ho. revert s. induction blocks as [|a r IH]; intros s; simpl;
    [contradiction|].
  intros [-> | H].
  - rewrite Ho, owner_eqb_refl. now left.
  - destruct (owner_eqb o (owner_of s a)); [right|]; now apply IH.
Qed.

Lemma section_group_select (sec : section) (blocks : list TextBlock) :
  section_group sec (group_blocks blocks)
  = select (OSection sec) (owners_from init blocks) blocks.
Proof.
  destruct (run_groups blocks init) as (_ & H2 & H3 & H4).
  cbv zeta in H2, H3, H4. simpl in H2, H3, H4.
  unfold section_group, group_blocks, groups_of.
  destruct sec; simpl; assumption.
Qed.

Lemma marker_group_select (blocks : list TextBlock) :
  marker_group (group_blocks blocks)
  = select OMarker (owners_from init blocks) blocks.
Proof.
  destruct (run_groups blocks init) as (H1 & _).
  cbv zeta in H1. simpl in H1.
  unfold marker_group, group_blocks, groups_of. simpl. assumption.
Qed.

(** X13. A heading lands in its own section and nowhere else: every block
    of the input that is a heading of a section is a member of that
    section's group, and of neither group 1 nor another section's group. *)
Theorem heading_lands_in_its_section (blocks : list TextBlock)
    (sec : section) (h : TextBlock) :
  In h blocks -> classify h = Some (RHeading sec) ->
  In h (section_group sec (group_blocks blocks))
  /\ ~ In h (marker_group (group_blocks blocks))
  /\ (forall sec', sec' <> sec ->
        ~ In h (section_group sec' (group_blocks blocks))).
Proof.
  intros Hin Hh.
  assert (Ho : forall s', owner_of s' h = OSection sec)
    by (intros s'; unfold owner_of; now rewrite Hh).
  rewrite marker_group_select. repeat split.
  - rewrite section_group_select. now apply select_complete.
  - intros H. apply select_owner in H as [s' H]. rewrite Ho in H. discriminate.
  - intros sec' Hne H. rewrite section_group_select in H.
    apply select_owner in H as [s' H]. rewrite Ho in H. congruence.
Qed.

Lemma heading_lands_in_its_section_witness :
  In status_again
     (section_group SecA
        (group_blocks [description; lineB; status_again; lineC]))
  /\ ~ In status_again
         (marker_group (group_blocks [description; lineB; status_again; lineC]))
  /\ (forall sec', sec' <> SecA ->
        ~ In status_again
            (section_group sec'
               (group_blocks [description; lineB; status_again; lineC]))).
Proof.
  apply (heading_lands_in_its_section
           [description; lineB; status_again; lineC] SecA status_again).
  - simpl. auto.
  - reflexivity.
Defined.

Lemma owner_section_classify (s : state) (blk : TextBlock) (sec : section) :
  owner_of s blk = OSection sec ->
  classify blk = Some (RHeading sec) \/ classify blk = None.
Proof.
  unfold owner_of. destruct (classify blk) as [[|sec']|].
  - discriminate.
  - intros H. injection H as ->. now left.
  - now right.
Qed.

(** X17. What a section holds: every member of group 2, 3 or 4 is a heading
    of that section or a block without any keyword; a block containing
    "restricted" or the heading of another section is never among them. *)
Theorem section_members (blocks : list TextBlock) (sec : section) :
  Forall (fun blk => classify blk = Some (RHeading sec) \/ classify blk = None)
         (section_group sec (group_blocks blocks)).
Proof.
  rewrite section_group_select. apply Forall_forall. intros b Hb.
  apply select_owner in Hb as [s' Hb].
  eapply owner_section_classify; exact Hb.
Qed.

Lemma select_sorted (R : TextBlock -> TextBlock -> Prop) (o : owner)
    (ows : list owner) (blocks : list TextBlock) :
  StronglySorted R blocks -> StronglySorted R (select o ows blocks).
Proof.
  intros Hs. revert ows. induction Hs as [|a r Hs IH Ha]; intros [|ow ows];
    simpl; try constructor.
  destruct (owner_eqb o ow); [|apply IH].
  constructor; [apply IH|].
  rewrite Forall_forall in Ha |- *. intros x Hx.
  apply Ha. eapply select_incl; exact Hx.
Qed.

(** X14. Groups are in reading order: when no block has a NaN top or left,
    each of the four groups made from the sorted blocks is itself in
    non-decreasing [(y0, x0)] order. *)
Theorem groups_in_reading_order (blocks : list TextBlock) :
  Forall (fun blk => no_nan blk = true) blocks ->
  Forall (StronglySorted (le_key sort_key tuple_lt))
         (group_blocks (sort_blocks blocks)).
Proof.
  intros Hok. pose proof (sort_blocks_sorted blocks Hok) as Hs.
  destruct (run_groups (sort_blocks blocks) init) as (H1 & H2 & H3 & H4).
  cbv zeta in H1, H2, H3, H4. simpl in H1, H2, H3, H4.
  unfold group_blocks, groups_of. rewrite H1, H2, H3, H4.
  repeat constructor; now apply select_sorted.
Qed.

Lemma groups_in_reading_order_witness :
  Forall (StronglySorted (le_key sort_key tuple_lt))
         (group_blocks (sort_blocks [lineA; tie2; status; restricted; tie1])).
Proof.
  apply (groups_in_reading_order [lineA; tie2; status; restricted; tie1]).
  repeat constructor.
Defined.

(** ** Cleaning the text *)

Lemma isspace_lower_char (c : ascii) :
  PyStr.isspace (PyStr.lower_char c) = PyStr.isspace c.
Proof. destruct c as [[] [] [] [] [] [] [] []]; reflexivity. Qed.

Lemma lower_lstrip (t : string) :
  PyStr.lower (PyStr.lstrip t) = PyStr.lstrip (PyStr.lower t).
Proof.
  induction t as [|c r IH]; [reflexivity|].
  cbn [PyStr.lstrip PyStr.lower]. rewrite isspace_lower_char.
  destruct (PyStr.isspace c); [exact IH | reflexivity].
Qed.

Lemma lower_rstrip (t : string) :
  PyStr.lower (PyStr.rstrip t) = PyStr.rstrip (PyStr.lower t).
Proof.
  induction t as [|c r IH]; [reflexivity|].
  cbn [PyStr.rstrip PyStr.lower]. rewrite <- IH, isspace_lower_char.
  destruct (PyStr.rstrip r); simpl; [|reflexivity].
  destruct (PyStr.isspace c); reflexivity.
Qed.

Lemma txt_clean_lower_first (blk : TextBlock) :
  txt_clean blk = PyStr.strip (PyStr.lower (text blk)).
Proof.
  unfold txt_clean, PyStr.strip. now rewrite lower_rstrip, lower_lstrip.
Qed.

(** X15. Letter case never matters: two blocks whose texts are equal once
    lower-cased are classified alike, and from any state [step] leaves the
    same flags after either of them. *)
Theorem classification_ignores_case (a b : TextBlock) :
  PyStr.lower (text a) = PyStr.lower (text b) ->
  classify a = classify b
  /\ forall s, flags (step s a) = flags (step s b).
Proof.
  intros H.
  assert (Hc : classify a = classify b).
  { unfold classify. now rewrite !txt_clean_lower_first, H. }
  split; [exact Hc|]. intros s. now rewrite !step_flags, Hc.
Qed.

Lemma classification_ignores_case_witness :
  classify shouted = classify description
  /\ forall s, flags (step s shouted) = flags (step s description).
Proof.
  apply (classification_ignores_case shouted description). reflexivity.
Defined.

Lemma lstrip_leading_space (w t : string) :
  all_space w = true -> PyStr.lstrip (w ++ t) = PyStr.lstrip t.
Proof.
  induction w as [|c r IH]; simpl; [reflexivity|].
  intros H. apply andb_true_iff in H as [Hc Hr]. now rewrite Hc, IH.
Qed.

Lemma lstrip_all_space (w : string) :
  all_space w = true -> PyStr.lstrip w = "".
Proof.
  induction w as [|c r IH]; simpl; [reflexivity|].
  intros H. apply andb_true_iff in H as [Hc Hr]. now rewrite Hc, IH.
Qed.

Lemma rstrip_all_space (w : string) :
  all_space w = true -> PyStr.rstrip w = "".
Proof.
  induction w as [|c r IH]; simpl; [reflexivity|].
  intros H. apply andb_true_iff in H as [Hc Hr]. now rewrite IH, Hc.
Qed.

Lemma rstrip_trailing_space (t w : string) :
  all_space w = true -> PyStr.rstrip (t ++ w) = PyStr.rstrip t.
Proof.
  intros H. induction t as [|c r IH]; simpl.
  - now apply rstrip_all_space.
  - now rewrite IH.
Qed.

Lemma lstrip_app (t w : string) :
  PyStr.lstrip (t ++ w)
  = match PyStr.lstrip t with
    | EmptyString => PyStr.lstrip w
    | kept => (kept ++ w)%string
    end.
Proof.
  induction t as [|c r IH]; simpl; [now destruct (PyStr.lstrip w)|].
  destruct (PyStr.isspace c); [exact IH | reflexivity].
Qed.

Lemma strip_surrounding_space (w1 t w2 : string) :
  all_space w1 = true -> all_space w2 = true ->
  PyStr.strip (w1 ++ t ++ w2) = PyStr.strip t.
Proof.
  intros H1 H2. unfold PyStr.strip.
  rewrite lstrip_leading_space by exact H1. rewrite lstrip_app.
  destruct (PyStr.lstrip t) as [|c r] eqn:E.
  - now rewrite lstrip_all_space.
  - now rewrite rstrip_trailing_space.
Qed.

(** X16. Whitespace around the text never matters: a block whose text is
    that of another with whitespace put before and after it has the same
    cleaned text, hence the same classification. *)
Theorem classification_ignores_padding (a b : TextBlock) (w1 w2 : string) :
  all_space w1 = true -> all_space w2 = true ->
  text b = (w1 ++ text a ++ w2)%string ->
  txt_clean b = txt_clean a /\ classify b = classify a.
Proof.
  intros H1 H2 Hb.
  assert (Ht : txt_clean b = txt_clean a).
  { unfold txt_clean. now rewrite Hb, strip_surrounding_space. }
  split; [exact Ht|]. unfold classify. now rewrite Ht.
Qed.

Lemma classification_ignores_padding_witness :
  txt_clean padded = txt_clean description
  /\ classify padded = classify description.
Proof.
  apply (classification_ignores_padding description padded "   " "
");
    reflexivity.
Defined.
